(** * A bit-packing codec for sequences of integers in 1..300

    Shallow embedding of [src/serialize.ts]: the width selector
    [determineBitsPerNumber], the encoder [serialize] and the decoder
    [deserialize], together with the JavaScript string and number
    primitives they call ([toString(2)], [padStart], [padEnd], [substr],
    [parseInt(_, 2)], [indexOf], indexing).

    Conventions of the embedding.
    - A JavaScript string is a [list ascii]; every string the codec builds
      or accepts as valid is made of ASCII characters.
    - The input of [serialize] is a list of integers ([Z]), as the
      interface of the specification has it.  A value of type [number]
      that the code computes can also be [-Infinity] (the maximum of no
      arguments) or [NaN] ([parseInt] of a string with no digit), hence
      the type [number] below.
    - [throw new Error(msg)] is a result [Throw e], one constructor of
      [error] per message of the source. *)

From Stdlib Require Import Ascii String.
From Stdlib Require Import ZArith List Bool Arith Lia.
From Stdlib Require DecimalString.
Import ListNotations.

Local Open Scope char_scope.
Local Open Scope list_scope.

(** ** JavaScript values *)

Module JS.

(** A JavaScript string. *)
Definition str := list ascii.

(** A string literal. *)
Definition lit (s : string) : str := list_ascii_of_string s.

(** The values of type [number] the codec can compute. *)
Inductive number : Type :=
| Int (z : Z)
| NegInfinity
| NaN.

(** [a < b] for a computed number [a] and an integer literal [b]:
    [-Infinity] is below everything, a comparison with [NaN] is false. *)
Definition lt (a : number) (b : Z) : bool :=
  match a with
  | Int z => (z <? b)%Z
  | NegInfinity => true
  | NaN => false
  end.

(** [Math.max(...numbers)] over integers; [-Infinity] without arguments. *)
Definition Math_max (numbers : list Z) : number :=
  fold_left
    (fun m x =>
       match m with
       | Int a => Int (Z.max a x)
       | NegInfinity => Int x
       | NaN => NaN
       end)
    numbers NegInfinity.

(** Binary digits of a positive number, most significant first, in front
    of [acc]. *)
Fixpoint bits_pos (p : positive) (acc : str) : str :=
  match p with
  | xH => "1" :: acc
  | xO q => bits_pos q ("0" :: acc)
  | xI q => bits_pos q ("1" :: acc)
  end.

(** [z.toString(2)] for an integer [z]. *)
Definition toString2 (z : Z) : str :=
  match z with
  | Z0 => ["0"]
  | Zpos p => bits_pos p []
  | Zneg p => "-" :: bits_pos p []
  end.

(** [s.padStart(n, "0")]: zeros in front up to length [n], never a cut. *)
Definition padStart (s : str) (n : nat) : str :=
  repeat "0" (n - length s) ++ s.

(** [s.padEnd(n, "0")]. *)
Definition padEnd (s : str) (n : nat) : str :=
  s ++ repeat "0" (n - length s).

(** [s.substr(start, len)]: at most [len] characters from [start] on,
    fewer (or none) when the string ends before. *)
Definition substr (s : str) (start len : nat) : str :=
  firstn len (skipn start s).

(** [s[i]]: [None] stands for [undefined]. *)
Definition charAt (s : str) (i : nat) : option ascii := nth_error s i.

(** [s === t] on strings. *)
Fixpoint eqb (s t : str) : bool :=
  match s, t with
  | [], [] => true
  | a :: s', b :: t' => Ascii.eqb a b && eqb s' t'
  | _, _ => false
  end.

(** The value of the longest prefix of binary digits of [s], continuing
    from [acc]. *)
Fixpoint digits (s : str) (acc : Z) : Z :=
  match s with
  | c :: s' =>
      if Ascii.eqb c "0" then digits s' (2 * acc)
      else if Ascii.eqb c "1" then digits s' (2 * acc + 1)
      else acc
  | [] => acc
  end.

(** [parseInt(s, 2)]: the value of the leading binary digits, [NaN] when
    there is none.  (The sign and the leading white space that [parseInt]
    also accepts never occur: the codec only parses pieces of strings made
    of the characters 0 and 1, see [fromBase64_binary].) *)
Definition parseInt2 (s : str) : number :=
  match s with
  | c :: _ =>
      if Ascii.eqb c "0" || Ascii.eqb c "1" then Int (digits s 0) else NaN
  | [] => NaN
  end.

(** The position of the first [ch] in [s], counting from [i]; [-1] when
    there is none. *)
Fixpoint indexOfFrom (s : str) (ch : ascii) (i : Z) : Z :=
  match s with
  | [] => (-1)%Z
  | c :: s' => if Ascii.eqb c ch then i else indexOfFrom s' ch (i + 1)
  end.

(** [s.indexOf(ch)] for a one-character [ch], [-1] when absent. *)
Definition indexOf (s : str) (ch : ascii) : Z := indexOfFrom s ch 0.

(** [s[index]] converted to a string for [+=]: indexing by anything but
    an in-range integer gives [undefined], which is appended as the text
    "undefined". *)
Definition charAtNumber (s : str) (index : number) : str :=
  match index with
  | Int i =>
      if (i <? 0)%Z then lit "undefined"
      else match charAt s (Z.to_nat i) with
           | Some c => [c]
           | None => lit "undefined"
           end
  | _ => lit "undefined"
  end.

(** [z.toString()] for an integer [z]: its decimal digits, with a minus
    sign when negative.  (JavaScript writes integers this way up to
    [10^21], far above anything the codec accepts.) *)
Definition toString10 (z : Z) : str :=
  lit (DecimalString.NilZero.string_of_int (Z.to_int z)).

(** [numbers.join(",")]: the empty string for no element. *)
Fixpoint join (numbers : list Z) : str :=
  match numbers with
  | [] => []
  | x :: rest =>
      match rest with
      | [] => toString10 x
      | _ :: _ => toString10 x ++ "," :: join rest
      end
  end.

End JS.

Import JS.

(** ** Errors and results *)

(** The errors the codec throws, one per [throw new Error(...)]:
    - [RangeError]: serialize, line 44, all numbers must be in 1-300;
    - [UnsupportedWidth]: serialize, line 58, unsupported number of bits;
    - [InvalidCharacter ch]: deserialize, line 98, with the character;
    - [InvalidWidthCode]: deserialize, line 120, bad bit-length code. *)
Inductive error : Type :=
| RangeError
| UnsupportedWidth
| InvalidCharacter (ch : ascii)
| InvalidWidthCode.

Inductive result (A : Type) : Type :=
| Ok (a : A)
| Throw (e : error).

Arguments Ok {A} a.
Arguments Throw {A} e.

Definition bind {A B : Type} (r : result A) (k : A -> result B) : result B :=
  match r with
  | Ok a => k a
  | Throw e => Throw e
  end.

Notation "x <- r ;; k" := (bind r (fun x => k))
  (at level 61, r at next level, right associativity).

(** ** The codec *)

Definition BASE64_CHARS : str :=
  lit "ABCDEFGHIJKLMNOPQRSTUVWXYZabcdefghijklmnopqrstuvwxyz0123456789+/".

(** Lines 25-30. *)
Definition determineBitsPerNumber (numbers : list Z) : nat :=
  let max := Math_max numbers in
  if lt max 10 then 4
  else if lt max 100 then 7
  else 9.

(** Line 43: [num < 1 || num > 300]. *)
Definition outOfRange (num : Z) : bool := (num <? 1)%Z || (num >? 300)%Z.

(** Lines 54-58: the two-bit code of a width. *)
Definition bitsCodeOf (bitsPerNumber : nat) : result str :=
  if Nat.eqb bitsPerNumber 4 then Ok (lit "00")
  else if Nat.eqb bitsPerNumber 7 then Ok (lit "01")
  else if Nat.eqb bitsPerNumber 9 then Ok (lit "10")
  else Throw UnsupportedWidth.

(** Lines 62-66: the length flag and the length field. *)
Definition lengthHeader (numbers : list Z) : str :=
  if (length numbers <? 64)%nat
  then "0" :: padStart (toString2 (Z.of_nat (length numbers))) 6
  else "1" :: padStart (toString2 (Z.of_nat (length numbers))) 10.

(** Lines 71-73: the loop appending each number on [bitsPerNumber] bits. *)
Definition appendNumbers (bitsPerNumber : nat) (numbers : list Z) (bitStr : str)
  : str :=
  fold_left
    (fun bitStr num => bitStr ++ padStart (toString2 num) bitsPerNumber)
    numbers bitStr.

(** Lines 76-77: padding with zeros to a multiple of 6. *)
Definition padToSix (bitStr : str) : str :=
  let padding := (6 - (length bitStr mod 6)) mod 6 in
  padEnd bitStr (length bitStr + padding).

(** Lines 43-77 of [serialize]: the bit string, before it is turned into
    symbols. *)
Definition serializeBits (numbers : list Z) : result str :=
  if existsb outOfRange numbers then Throw RangeError
  else
    let bitStr : str := [] in
    let bitsPerNumber := determineBitsPerNumber numbers in
    bitsCode <- bitsCodeOf bitsPerNumber ;;
    let bitStr := bitStr ++ lengthHeader numbers in
    let bitStr := bitStr ++ bitsCode in
    let bitStr := appendNumbers bitsPerNumber numbers bitStr in
    Ok (padToSix bitStr).

(** Lines 81-85: [for (let i = 0; i < bitStr.length; i += 6)].  Each turn
    moves [i] by 6, so [fuel] turns are enough as soon as
    [length bitStr <= i + 6 * fuel] (see [toBase64Loop_fuel]). *)
Fixpoint toBase64Loop (fuel : nat) (bitStr : str) (i : nat) (result : str)
  : str :=
  match fuel with
  | O => result
  | S fuel' =>
      if (i <? length bitStr)%nat then
        let chunk := substr bitStr i 6 in
        let index := parseInt2 chunk in
        toBase64Loop fuel' bitStr (i + 6) (result ++ charAtNumber BASE64_CHARS index)
      else result
  end.

(** Lines 80-86. *)
Definition toBase64 (bitStr : str) : str :=
  toBase64Loop (length bitStr) bitStr 0 [].

(** Lines 42-87. *)
Definition serialize (numbers : list Z) : result str :=
  bitStr <- serializeBits numbers ;;
  Ok (toBase64 bitStr).

(** Lines 95-100: every character back to its six bits. *)
Fixpoint fromBase64Loop (serialized : str) (bitStr : str) : result str :=
  match serialized with
  | [] => Ok bitStr
  | ch :: rest =>
      let index := indexOf BASE64_CHARS ch in
      if (index =? -1)%Z then Throw (InvalidCharacter ch)
      else fromBase64Loop rest (bitStr ++ padStart (toString2 index) 6)
  end.

Definition fromBase64 (serialized : str) : result str :=
  fromBase64Loop serialized [].

(** Lines 104-112: the flag and the count, with the position after them.
    [bitStr[0]] is [undefined] on the empty string, which is not "0". *)
Definition readCount (bitStr : str) : number * nat :=
  let pos := 0 in
  let flag := charAt bitStr pos in
  let pos := pos + 1 in
  match flag with
  | Some "0" => (parseInt2 (substr bitStr pos 6), pos + 6)
  | _ => (parseInt2 (substr bitStr pos 10), pos + 10)
  end.

(** Lines 116-120. *)
Definition widthOfCode (bitsCode : str) : result nat :=
  if eqb bitsCode (lit "00") then Ok 4
  else if eqb bitsCode (lit "01") then Ok 7
  else if eqb bitsCode (lit "10") then Ok 9
  else Throw InvalidWidthCode.

(** How many turns [for (let i = 0; i < count; i++)] takes: [count] for
    an integer ([parseInt] gives no negative one here), none for [NaN],
    since [0 < NaN] is false. *)
Definition turns (count : number) : nat :=
  match count with
  | Int c => Z.to_nat c
  | _ => 0
  end.

(** Lines 123-128, for [n] turns. *)
Fixpoint readNumbers (n : nat) (bitStr : str) (pos bitsPerNumber : nat)
  (numbers : list number) : list number :=
  match n with
  | O => numbers
  | S n' =>
      let chunk := substr bitStr pos bitsPerNumber in
      let num := parseInt2 chunk in
      readNumbers n' bitStr (pos + bitsPerNumber) bitsPerNumber (numbers ++ [num])
  end.

(** Lines 102-129 of [deserialize]: the reader of the bit string. *)
Definition readBits (bitStr : str) : result (list number) :=
  let '(count, pos) := readCount bitStr in
  let bitsCode := substr bitStr pos 2 in
  let pos := pos + 2 in
  bitsPerNumber <- widthOfCode bitsCode ;;
  Ok (readNumbers (turns count) bitStr pos bitsPerNumber []).

(** Lines 94-130. *)
Definition deserialize (serialized : str) : result (list number) :=
  bitStr <- fromBase64 serialized ;;
  readBits bitStr.

(** ** The harness *)

(** Line 137 of [compressionRatio]: the text the serialized string is
    measured against.  (The function then divides the two lengths; the
    statements below are about the two lengths themselves.) *)
Definition trivial (numbers : list Z) : str := join numbers.

(** [Array.from({ length: n }, (_, i) => f(i))]. *)
Definition Array_from (n : nat) (f : Z -> Z) : list Z :=
  map (fun i => f (Z.of_nat i)) (seq 0 n).

(** Lines 179-185: [for (let i = 1; i <= 300; i++) arr.push(i, i, i)]. *)
Definition eachThrice : list Z :=
  fold_left (fun arr i => arr ++ [i; i; i])
    (map (fun k => Z.of_nat k) (seq 1 300)) [].

(** The data sets of [runTests] that do not draw random numbers
    (lines 147-148 and 165-186), in the order of the source. *)
Definition fixedTests : list (list Z) :=
  [ [1; 2; 3]%Z;
    [1; 2; 3; 4; 5; 6; 7; 8; 9]%Z;
    Array_from 300 (fun i => (i mod 9) + 1)%Z;
    Array_from 300 (fun i => 10 + (i mod 90))%Z;
    Array_from 300 (fun i => 100 + (i mod 201))%Z;
    eachThrice ].

(** ** Vocabulary of the statements *)

(** A string made of the characters 0 and 1 only. *)
Definition binary (s : str) : Prop := Forall (fun c => c = "0" \/ c = "1") s.

(** [m] is the greatest element of [numbers]. *)
Definition is_max (m : Z) (numbers : list Z) : Prop :=
  In m numbers /\ forall x, In x numbers -> (x <= m)%Z.

(** Every element lies in 1..300. *)
Definition valid (numbers : list Z) : Prop :=
  forall x, In x numbers -> (1 <= x <= 300)%Z.

(** Every character is a symbol of the alphabet. *)
Definition inAlphabet (s : str) : Prop := forall c, In c s -> In c BASE64_CHARS.

(** The bits of the elements, each on [bitsPerNumber] digits. *)
Definition body (bitsPerNumber : nat) (numbers : list Z) : str :=
  concat (map (fun num => padStart (toString2 num) bitsPerNumber) numbers).

(** The length of a returned list, [None] after a throw. *)
Definition lengthOf {A : Type} (r : result (list A)) : option nat :=
  match r with
  | Ok l => Some (length l)
  | Throw _ => None
  end.

(** [ceil(a / 6)]. *)
Definition ceilDiv6 (a : nat) : nat := (a + 5) / 6.

(** [n] times the value [v]: the sequences used as concrete inputs. *)
Definition constant (v : Z) (n : nat) : list Z := repeat v n.

(** ** Strings of binary digits *)

Lemma binary_nil : binary [].
Proof. constructor. Qed.

Lemma binary_cons c s : (c = "0" \/ c = "1") -> binary s -> binary (c :: s).
Proof. intros; constructor; assumption. Qed.

Lemma binary_app s t : binary s -> binary t -> binary (s ++ t).
Proof. intros; apply Forall_app; split; assumption. Qed.

Lemma binary_app_inv s t : binary (s ++ t) -> binary s /\ binary t.
Proof. intro H; apply Forall_app in H; exact H. Qed.

Lemma binary_repeat n : binary (repeat "0" n).
Proof. induction n; simpl; constructor; auto. Qed.

Lemma binary_firstn n s : binary s -> binary (firstn n s).
Proof.
  intro H; rewrite <- (firstn_skipn n s) in H.
  apply binary_app_inv in H; tauto.
Qed.

Lemma binary_skipn n s : binary s -> binary (skipn n s).
Proof.
  intro H; rewrite <- (firstn_skipn n s) in H.
  apply binary_app_inv in H; tauto.
Qed.

Lemma binary_substr s i n : binary s -> binary (substr s i n).
Proof. intro H; apply binary_firstn, binary_skipn, H. Qed.

Lemma binary_concat (l : list str) :
  (forall s, In s l -> binary s) -> binary (concat l).
Proof.
  induction l as [|s l IH]; simpl; intro H.
  - constructor.
  - apply binary_app; [apply H; now left | apply IH; intros; apply H; now right].
Qed.

Create HintDb bin.

#[local] Hint Resolve binary_nil binary_cons binary_app binary_repeat
  binary_firstn binary_skipn binary_substr : bin.

(** *** [toString(2)] *)

Lemma bits_pos_acc p : forall acc, bits_pos p acc = bits_pos p [] ++ acc.
Proof.
  induction p as [q IH|q IH|]; intro acc; simpl.
  - rewrite IH, (IH ["1"]), <- app_assoc; reflexivity.
  - rewrite IH, (IH ["0"]), <- app_assoc; reflexivity.
  - reflexivity.
Qed.

Lemma binary_bits_pos p : binary (bits_pos p []).
Proof.
  induction p as [q IH|q IH|]; simpl.
  - rewrite bits_pos_acc; auto with bin.
  - rewrite bits_pos_acc; auto with bin.
  - auto with bin.
Qed.

Lemma binary_toString2 z : (0 <= z)%Z -> binary (toString2 z).
Proof.
  destruct z as [|p|p]; simpl; intro H.
  - auto with bin.
  - apply binary_bits_pos.
  - lia.
Qed.

Lemma toString2_not_nil z : toString2 z <> [].
Proof.
  destruct z as [|p|p]; simpl; try discriminate.
  destruct p; simpl; try discriminate; rewrite bits_pos_acc;
    intro H; apply app_eq_nil in H; destruct H; discriminate.
Qed.

Lemma length_bits_pos p : forall w : nat,
  (Zpos p < 2 ^ Z.of_nat w)%Z -> length (bits_pos p []) <= w.
Proof.
  induction p as [q IH|q IH|]; intros w H; simpl.
  - destruct w as [|w]; [simpl in H; lia|].
    rewrite bits_pos_acc, length_app; simpl.
    rewrite Nat2Z.inj_succ, Z.pow_succ_r in H by lia.
    specialize (IH w); lia.
  - destruct w as [|w]; [simpl in H; lia|].
    rewrite bits_pos_acc, length_app; simpl.
    rewrite Nat2Z.inj_succ, Z.pow_succ_r in H by lia.
    specialize (IH w); lia.
  - destruct w as [|w]; [simpl in H; lia | simpl; lia].
Qed.

Lemma length_toString2 z (w : nat) :
  (0 <= z < 2 ^ Z.of_nat w)%Z -> 0 < w -> length (toString2 z) <= w.
Proof.
  destruct z as [|p|p]; simpl; intros H Hw.
  - lia.
  - apply length_bits_pos; lia.
  - lia.
Qed.

(** *** [padStart] and [padEnd] *)

Lemma length_padStart s n : length (padStart s n) = Nat.max n (length s).
Proof. unfold padStart; rewrite length_app, repeat_length; lia. Qed.

Lemma length_padStart_fit s n : length s <= n -> length (padStart s n) = n.
Proof. intro H; rewrite length_padStart; lia. Qed.

Lemma binary_padStart s n : binary s -> binary (padStart s n).
Proof. intro H; unfold padStart; auto with bin. Qed.

Lemma padStart_not_nil z n : padStart (toString2 z) n <> [].
Proof.
  unfold padStart; intro H; apply app_eq_nil in H.
  destruct H as [_ H]; exact (toString2_not_nil z H).
Qed.

(** *** [parseInt(_, 2)] *)

Lemma digits_app s : forall t acc,
  binary s -> digits (s ++ t) acc = digits t (digits s acc).
Proof.
  induction s as [|c s IH]; intros t acc H; simpl.
  - reflexivity.
  - inversion H as [|? ? [Hc|Hc] Hs]; subst; simpl; apply IH; assumption.
Qed.

Lemma digits_repeat n : forall acc, digits (repeat "0" n) acc = (acc * 2 ^ Z.of_nat n)%Z.
Proof.
  induction n as [|n IH]; intro acc.
  - simpl; lia.
  - cbn [repeat digits]. change (Ascii.eqb "0" "0") with true; cbv iota.
    rewrite IH, Nat2Z.inj_succ, Z.pow_succ_r by lia; lia.
Qed.

Lemma digits_bits_pos p : digits (bits_pos p []) 0 = Zpos p.
Proof.
  induction p as [q IH|q IH|]; simpl.
  - rewrite bits_pos_acc, digits_app, IH by apply binary_bits_pos; reflexivity.
  - rewrite bits_pos_acc, digits_app, IH by apply binary_bits_pos; reflexivity.
  - reflexivity.
Qed.

Lemma digits_toString2 z : (0 <= z)%Z -> digits (toString2 z) 0 = z.
Proof.
  destruct z as [|p|p]; simpl; intro H.
  - reflexivity.
  - apply digits_bits_pos.
  - lia.
Qed.

Lemma digits_padStart z n : (0 <= z)%Z -> digits (padStart (toString2 z) n) 0 = z.
Proof.
  intro H; unfold padStart.
  rewrite digits_app, digits_repeat by apply binary_repeat.
  simpl; apply digits_toString2, H.
Qed.

Lemma parseInt2_binary s : binary s -> s <> [] -> parseInt2 s = Int (digits s 0).
Proof.
  intros H Hs; destruct s as [|c s]; [congruence|].
  inversion H as [|? ? [Hc|Hc] _]; subst; reflexivity.
Qed.

Lemma parseInt2_padStart z n :
  (0 <= z)%Z -> parseInt2 (padStart (toString2 z) n) = Int z.
Proof.
  intro H; rewrite parseInt2_binary.
  - rewrite digits_padStart by assumption; reflexivity.
  - apply binary_padStart, binary_toString2, H.
  - apply padStart_not_nil.
Qed.

(** A binary string of [n] digits is worth less than [2^n]. *)
Lemma digits_bound s : forall acc,
  binary s -> (0 <= acc)%Z ->
  (acc * 2 ^ Z.of_nat (length s) <= digits s acc < (acc + 1) * 2 ^ Z.of_nat (length s))%Z.
Proof.
  induction s as [|c s IH]; intros acc H Hacc.
  - simpl; lia.
  - cbn [length]; rewrite Nat2Z.inj_succ, Z.pow_succ_r by lia.
    assert (HP : (0 < 2 ^ Z.of_nat (length s))%Z) by (apply Z.pow_pos_nonneg; lia).
    inversion H as [|? ? [Hc|Hc] Hs]; subst.
    + specialize (IH (2 * acc)%Z Hs ltac:(lia)).
      set (P := (2 ^ Z.of_nat (length s))%Z) in *.
      change (digits ("0" :: s) acc) with (digits s (2 * acc)); nia.
    + specialize (IH (2 * acc + 1)%Z Hs ltac:(lia)).
      set (P := (2 ^ Z.of_nat (length s))%Z) in *.
      change (digits ("1" :: s) acc) with (digits s (2 * acc + 1)); nia.
Qed.

(** *** [substr] *)

Lemma substr_app_exact pre s post :
  substr (pre ++ s ++ post) (length pre) (length s) = s.
Proof.
  unfold substr.
  rewrite skipn_app, skipn_all, Nat.sub_diag; simpl.
  rewrite firstn_app, firstn_all, Nat.sub_diag; simpl.
  apply app_nil_r.
Qed.

Lemma substr_shift pre s i n : substr (pre ++ s) (length pre + i) n = substr s i n.
Proof.
  unfold substr; rewrite skipn_app.
  rewrite (skipn_all2 pre) by lia; simpl.
  replace (length pre + i - length pre) with i by lia; reflexivity.
Qed.

Lemma substr_head s t n : length s = n -> substr (s ++ t) 0 n = s.
Proof.
  intro H; unfold substr; simpl.
  rewrite firstn_app, <- H, firstn_all, Nat.sub_diag; simpl; apply app_nil_r.
Qed.

(** ** The symbols *)

Lemma indexOfFrom_range s ch : forall i,
  (0 <= i)%Z ->
  indexOfFrom s ch i = (-1)%Z \/
  (i <= indexOfFrom s ch i < i + Z.of_nat (length s))%Z.
Proof.
  induction s as [|c s IH]; intros i Hi; cbn [indexOfFrom length].
  - now left.
  - destruct (Ascii.eqb c ch); [right; lia|].
    destruct (IH (i + 1)%Z ltac:(lia)) as [E|E]; [now left | right; lia].
Qed.

Lemma indexOfFrom_In s ch : forall i,
  (0 <= i)%Z -> indexOfFrom s ch i <> (-1)%Z <-> In ch s.
Proof.
  induction s as [|c s IH]; intros i Hi; cbn [indexOfFrom In].
  - split; [congruence | contradiction].
  - destruct (Ascii.eqb_spec c ch) as [->|Hc].
    + split; [now left | lia].
    + rewrite IH by lia; split; [now right | intros [E|H]; congruence].
Qed.

(** In the alphabet, as [indexOf] sees it. *)
Lemma indexOf_In s ch : indexOf s ch <> (-1)%Z -> In ch s.
Proof. apply indexOfFrom_In; lia. Qed.

Lemma In_indexOf s ch : In ch s -> indexOf s ch <> (-1)%Z.
Proof. apply indexOfFrom_In; lia. Qed.

Lemma indexOf_range s ch : (-1 <= indexOf s ch < Z.of_nat (length s))%Z.
Proof.
  destruct s as [|c s]; [cbn; lia|].
  destruct (indexOfFrom_range (c :: s) ch 0 ltac:(lia)) as [E|E];
    unfold indexOf; [rewrite E; cbn [length]|]; lia.
Qed.

Lemma fromBase64Loop_cons ch rest bitStr :
  fromBase64Loop (ch :: rest) bitStr =
  if (indexOf BASE64_CHARS ch =? -1)%Z then Throw (InvalidCharacter ch)
  else fromBase64Loop rest (bitStr ++ padStart (toString2 (indexOf BASE64_CHARS ch)) 6).
Proof. reflexivity. Qed.

(** Six binary digits name one symbol of the alphabet, whose index gives
    the six digits back. *)
Lemma symbol_roundtrip chunk :
  binary chunk -> length chunk = 6 ->
  exists c,
    charAtNumber BASE64_CHARS (parseInt2 chunk) = [c] /\
    indexOf BASE64_CHARS c <> (-1)%Z /\
    padStart (toString2 (indexOf BASE64_CHARS c)) 6 = chunk.
Proof.
  intros H L.
  do 6 (destruct chunk as [|? chunk]; [discriminate L|]).
  destruct chunk; [|discriminate L].
  unfold binary in H.
  repeat match goal with
         | H : Forall _ (_ :: _) |- _ =>
             let Hc := fresh in let Hs := fresh in
             inversion H as [|? ? Hc Hs]; subst; clear H; destruct Hc; subst
         end;
    eexists; (split; [reflexivity|]); (split; [vm_compute; discriminate | reflexivity]).
Qed.

(** ** Bit string to symbols and back *)

Lemma toBase64Loop_acc fuel bitStr : forall i result,
  toBase64Loop fuel bitStr i result = result ++ toBase64Loop fuel bitStr i [].
Proof.
  induction fuel as [|fuel IH]; intros i result; simpl.
  - symmetry; apply app_nil_r.
  - destruct (i <? length bitStr)%nat.
    + rewrite IH, (IH _ (charAtNumber _ _)), app_assoc; reflexivity.
    + symmetry; apply app_nil_r.
Qed.

Lemma toBase64Loop_shift fuel pre bitStr : forall i result,
  toBase64Loop fuel (pre ++ bitStr) (length pre + i) result =
  toBase64Loop fuel bitStr i result.
Proof.
  induction fuel as [|fuel IH]; intros i result; simpl.
  - reflexivity.
  - rewrite length_app, substr_shift.
    replace (length pre + i <? length pre + length bitStr)%nat
      with (i <? length bitStr)%nat
      by (destruct (Nat.ltb_spec i (length bitStr));
          destruct (Nat.ltb_spec (length pre + i) (length pre + length bitStr)); lia).
    destruct (i <? length bitStr)%nat; [|reflexivity].
    rewrite <- Nat.add_assoc; apply IH.
Qed.

(** The loop has run to its end as soon as the fuel covers the string. *)
Lemma toBase64Loop_fuel fuel bitStr : forall fuel' i result,
  length bitStr <= i + 6 * fuel ->
  length bitStr <= i + 6 * fuel' ->
  toBase64Loop fuel bitStr i result = toBase64Loop fuel' bitStr i result.
Proof.
  induction fuel as [|fuel IH]; intros fuel' i result H H'.
  - destruct fuel' as [|fuel']; [reflexivity|]; simpl.
    destruct (Nat.ltb_spec i (length bitStr)); [lia | reflexivity].
  - destruct fuel' as [|fuel']; simpl.
    + destruct (Nat.ltb_spec i (length bitStr)); [lia | reflexivity].
    + destruct (Nat.ltb_spec i (length bitStr)); [|reflexivity].
      apply IH; lia.
Qed.

(** [toBase64] gives its loop enough fuel: more changes nothing. *)
Lemma toBase64_fuel fuel bitStr :
  length bitStr <= 6 * fuel ->
  toBase64Loop fuel bitStr 0 [] = toBase64 bitStr.
Proof. intro H; apply toBase64Loop_fuel; lia. Qed.

Lemma toBase64_nil : toBase64 [] = [].
Proof. reflexivity. Qed.

Lemma toBase64_chunk chunk rest :
  length chunk = 6 ->
  toBase64 (chunk ++ rest) =
  charAtNumber BASE64_CHARS (parseInt2 chunk) ++ toBase64 rest.
Proof.
  intro L; unfold toBase64.
  rewrite length_app, L.
  change (6 + length rest) with (S (5 + length rest)).
  cbn [toBase64Loop].
  destruct (Nat.ltb_spec 0 (length (chunk ++ rest))) as [_|H];
    [|rewrite length_app in H; lia].
  rewrite (substr_head chunk rest 6 L), app_nil_l.
  rewrite toBase64Loop_acc; f_equal.
  replace (0 + 6) with (length chunk + 0) by lia.
  rewrite toBase64Loop_shift.
  apply toBase64Loop_fuel; lia.
Qed.

(** Induction over a string six characters at a time. *)
Lemma six_ind (P : str -> Prop) :
  P [] ->
  (forall chunk rest, length chunk = 6 -> P rest -> P (chunk ++ rest)) ->
  forall s, length s mod 6 = 0 -> P s.
Proof.
  intros H0 H6 s Hs.
  assert (Hk : exists k, length s = 6 * k).
  { exists (length s / 6). apply Nat.Div0.div_exact in Hs; exact Hs. }
  destruct Hk as [k Hk]; clear Hs.
  revert s Hk; induction k as [|k IH]; intros s Hk.
  - destruct s; [exact H0 | simpl in Hk; lia].
  - rewrite <- (firstn_skipn 6 s); apply H6.
    + rewrite length_firstn; lia.
    + apply IH; rewrite length_skipn; lia.
Qed.

Lemma fromBase64Loop_toBase64 bitStr :
  length bitStr mod 6 = 0 -> binary bitStr ->
  forall acc, fromBase64Loop (toBase64 bitStr) acc = Ok (acc ++ bitStr).
Proof.
  intro H; pattern bitStr; revert bitStr H; apply six_ind.
  - intros _ acc; rewrite toBase64_nil, app_nil_r; reflexivity.
  - intros chunk rest L IH B acc.
    apply binary_app_inv in B; destruct B as [Bc Br].
    destruct (symbol_roundtrip chunk Bc L) as (c & Hc & Hi & Hp).
    rewrite toBase64_chunk, Hc by assumption; cbn [app].
    rewrite fromBase64Loop_cons.
    destruct (Z.eqb_spec (indexOf BASE64_CHARS c) (-1)); [contradiction|].
    rewrite Hp, IH, app_assoc by assumption; reflexivity.
Qed.

(** Unpacking undoes packing on a binary string whose length is a
    multiple of 6. *)
Lemma fromBase64_toBase64 bitStr :
  length bitStr mod 6 = 0 -> binary bitStr ->
  fromBase64 (toBase64 bitStr) = Ok bitStr.
Proof. intros H B; apply (fromBase64Loop_toBase64 bitStr H B []). Qed.

(** ** The width selector *)

Lemma Math_max_fold l : forall m,
  fold_left
    (fun m x =>
       match m with
       | Int a => Int (Z.max a x)
       | NegInfinity => Int x
       | NaN => NaN
       end) l (Int m) = Int (fold_left Z.max l m).
Proof. induction l as [|x l IH]; intro m; simpl; [reflexivity | apply IH]. Qed.

Lemma fold_max_spec l : forall m,
  let r := fold_left Z.max l m in
  (r = m \/ In r l) /\ (m <= r)%Z /\ forall x, In x l -> (x <= r)%Z.
Proof.
  induction l as [|y l IH]; intro m; simpl.
  - repeat split; [now left | lia | contradiction].
  - destruct (IH (Z.max m y)) as (Hin & Hm & Hall).
    repeat split.
    + destruct Hin as [E|Hin]; [|now right; right].
      destruct (Z.max_spec m y) as [[_ E']|[_ E']];
        [right; left; congruence | left; congruence].
    + lia.
    + intros x [-> | Hx]; [lia | apply Hall, Hx].
Qed.

Lemma Math_max_nil : Math_max [] = NegInfinity.
Proof. reflexivity. Qed.

Lemma Math_max_is_max numbers :
  numbers <> [] -> exists m, Math_max numbers = Int m /\ is_max m numbers.
Proof.
  destruct numbers as [|x l]; [congruence|]; intros _.
  exists (fold_left Z.max l x); split.
  - unfold Math_max; simpl; apply Math_max_fold.
  - destruct (fold_max_spec l x) as (Hin & Hm & Hall); split.
    + destruct Hin as [E|Hin]; [left; congruence | now right].
    + intros y [-> | Hy]; [assumption | apply Hall, Hy].
Qed.

Lemma is_max_unique m m' numbers : is_max m numbers -> is_max m' numbers -> m = m'.
Proof.
  intros [Hin H] [Hin' H']; specialize (H _ Hin'); specialize (H' _ Hin); lia.
Qed.

Lemma determineBitsPerNumber_is_max m numbers :
  is_max m numbers ->
  determineBitsPerNumber numbers =
  if (m <? 10)%Z then 4 else if (m <? 100)%Z then 7 else 9.
Proof.
  intro Hm.
  destruct (Math_max_is_max numbers) as (m' & E & Hm').
  - destruct Hm as [Hin _]; intro; subst; contradiction.
  - rewrite (is_max_unique _ _ _ Hm Hm').
    unfold determineBitsPerNumber; rewrite E; reflexivity.
Qed.

Lemma determineBitsPerNumber_cases numbers :
  determineBitsPerNumber numbers = 4 \/
  determineBitsPerNumber numbers = 7 \/
  determineBitsPerNumber numbers = 9.
Proof.
  unfold determineBitsPerNumber.
  destruct (lt _ 10); [auto|]; destruct (lt _ 100); auto.
Qed.

(** The code written for the selected width, and the width the reader
    takes it for. *)
Lemma bitsCodeOf_determineBitsPerNumber numbers :
  exists bitsCode,
    bitsCodeOf (determineBitsPerNumber numbers) = Ok bitsCode /\
    (bitsCode = lit "00" \/ bitsCode = lit "01" \/ bitsCode = lit "10") /\
    widthOfCode bitsCode = Ok (determineBitsPerNumber numbers).
Proof.
  destruct (determineBitsPerNumber_cases numbers) as [E|[E|E]]; rewrite E;
    eexists; (split; [reflexivity|]); (split; [|reflexivity]); auto.
Qed.

(** ** The bit writer *)

Lemma outOfRange_spec num : outOfRange num = true <-> (num < 1 \/ num > 300)%Z.
Proof.
  unfold outOfRange; rewrite orb_true_iff, Z.ltb_lt, Z.gtb_ltb, Z.ltb_lt; lia.
Qed.

Lemma existsb_outOfRange numbers :
  existsb outOfRange numbers = true <->
  exists x, In x numbers /\ (x < 1 \/ x > 300)%Z.
Proof.
  rewrite existsb_exists; split; intros (x & Hin & H); exists x;
    (split; [assumption|]); apply outOfRange_spec; assumption.
Qed.

Lemma valid_existsb numbers : valid numbers -> existsb outOfRange numbers = false.
Proof.
  intro V; destruct (existsb outOfRange numbers) eqn:E; [|reflexivity].
  apply existsb_outOfRange in E; destruct E as (x & Hin & H).
  specialize (V x Hin); lia.
Qed.

Lemma appendNumbers_body bitsPerNumber numbers : forall bitStr,
  appendNumbers bitsPerNumber numbers bitStr = bitStr ++ body bitsPerNumber numbers.
Proof.
  unfold appendNumbers, body.
  induction numbers as [|x l IH]; intro bitStr; simpl.
  - symmetry; apply app_nil_r.
  - rewrite IH, app_assoc; reflexivity.
Qed.

Lemma padToSix_app bitStr :
  padToSix bitStr = bitStr ++ repeat "0" ((6 - length bitStr mod 6) mod 6).
Proof.
  unfold padToSix, padEnd; do 2 f_equal; lia.
Qed.

Lemma length_padToSix bitStr : length (padToSix bitStr) mod 6 = 0.
Proof.
  rewrite padToSix_app, length_app, repeat_length.
  pose proof (Nat.mod_upper_bound (length bitStr) 6 ltac:(lia)) as Hr.
  rewrite <- Nat.Div0.add_mod_idemp_l.
  set (r := length bitStr mod 6) in *.
  do 6 (destruct r as [|r]; [reflexivity|]); lia.
Qed.

(** What [serializeBits] writes when no element is out of range. *)
Lemma serializeBits_ok numbers :
  existsb outOfRange numbers = false ->
  exists bitsCode,
    bitsCodeOf (determineBitsPerNumber numbers) = Ok bitsCode /\
    serializeBits numbers =
    Ok (padToSix (lengthHeader numbers ++ bitsCode ++
                  body (determineBitsPerNumber numbers) numbers)).
Proof.
  intro E; unfold serializeBits; rewrite E.
  destruct (bitsCodeOf_determineBitsPerNumber numbers) as (bitsCode & Hc & _ & _).
  exists bitsCode; split; [assumption|].
  rewrite Hc; cbn [bind].
  rewrite appendNumbers_body, app_nil_l, app_assoc; reflexivity.
Qed.

Lemma binary_lengthHeader numbers : binary (lengthHeader numbers).
Proof.
  unfold lengthHeader; destruct (_ <? _)%nat;
    (apply binary_cons; [auto | apply binary_padStart, binary_toString2; lia]).
Qed.

Lemma binary_body bitsPerNumber numbers :
  (forall x, In x numbers -> (0 <= x)%Z) -> binary (body bitsPerNumber numbers).
Proof.
  intro H; apply binary_concat; intros s Hs.
  apply in_map_iff in Hs; destruct Hs as (x & <- & Hx).
  apply binary_padStart, binary_toString2, H, Hx.
Qed.

Lemma binary_lit_code bitsCode :
  bitsCode = lit "00" \/ bitsCode = lit "01" \/ bitsCode = lit "10" ->
  binary bitsCode /\ length bitsCode = 2.
Proof.
  intros [-> | [-> | ->]]; (split; [|reflexivity]);
    repeat (apply binary_cons; [auto|]); apply binary_nil.
Qed.

(** The selected width is enough for every element of a valid sequence. *)
Lemma width_fits numbers x :
  valid numbers -> In x numbers ->
  length (toString2 x) <= determineBitsPerNumber numbers.
Proof.
  intros V Hx.
  destruct (Math_max_is_max numbers) as (m & _ & Hm).
  { intro; subst; contradiction. }
  rewrite (determineBitsPerNumber_is_max m numbers Hm).
  destruct Hm as [Hin Hle]. specialize (Hle x Hx).
  pose proof (V x Hx) as Vx. pose proof (V m Hin) as Vm.
  destruct (Z.ltb_spec m 10); [|destruct (Z.ltb_spec m 100)];
    apply length_toString2; simpl; lia.
Qed.

(** ** The bit reader *)

Lemma substr_app_len pre s post n :
  length s = n -> substr (pre ++ s ++ post) (length pre) n = s.
Proof. intros <-; apply substr_app_exact. Qed.

Lemma length_readNumbers n bitStr bitsPerNumber : forall pos numbers,
  length (readNumbers n bitStr pos bitsPerNumber numbers) = length numbers + n.
Proof.
  induction n as [|n IH]; intros pos numbers; simpl.
  - lia.
  - rewrite IH, length_app; simpl; lia.
Qed.

(** Reading back the bits of [numbers] written on [w] digits each,
    whatever surrounds them. *)
Lemma readNumbers_body w numbers : forall pre post acc,
  (forall x, In x numbers -> (0 <= x)%Z /\ length (toString2 x) <= w) ->
  readNumbers (length numbers) (pre ++ body w numbers ++ post) (length pre) w acc =
  acc ++ map Int numbers.
Proof.
  induction numbers as [|x l IH]; intros pre post acc H.
  - simpl; symmetry; apply app_nil_r.
  - destruct (H x (or_introl eq_refl)) as [Hx Lx].
    assert (L : length (padStart (toString2 x) w) = w)
      by (apply length_padStart_fit, Lx).
    unfold body; cbn [map concat length readNumbers]; fold (body w l).
    rewrite <- (app_assoc (padStart _ _)).
    rewrite (substr_app_len pre _ _ w L), parseInt2_padStart by assumption.
    rewrite (app_assoc pre).
    replace (length pre + w) with (length (pre ++ padStart (toString2 x) w))
      by (rewrite length_app, L; reflexivity).
    rewrite IH by (intros y Hy; apply H; now right).
    rewrite <- app_assoc; reflexivity.
Qed.

Lemma firstn_app_len (s t : str) n : length s = n -> firstn n (s ++ t) = s.
Proof.
  intros <-; rewrite firstn_app, firstn_all, Nat.sub_diag; apply app_nil_r.
Qed.

Lemma readCount_flag0 s :
  readCount ("0" :: s) = (parseInt2 (firstn 6 s), 7).
Proof. reflexivity. Qed.

Lemma readCount_flag1 s :
  readCount ("1" :: s) = (parseInt2 (firstn 10 s), 11).
Proof. reflexivity. Qed.

(** The header of a sequence of at most 1023 elements gives its length
    back, and the reader stands right after it. *)
Lemma readCount_lengthHeader numbers rest :
  length numbers <= 1023 ->
  readCount (lengthHeader numbers ++ rest) =
  (Int (Z.of_nat (length numbers)), length (lengthHeader numbers)).
Proof.
  intro H; unfold lengthHeader.
  set (n := Z.of_nat (length numbers)).
  destruct (Nat.ltb_spec (length numbers) 64) as [Hn|Hn]; cbn [app].
  - assert (L : length (padStart (toString2 n) 6) = 6).
    { apply length_padStart_fit, length_toString2; simpl; lia. }
    rewrite readCount_flag0, (firstn_app_len _ _ 6 L), parseInt2_padStart by lia.
    cbn [length]; rewrite L; reflexivity.
  - assert (L : length (padStart (toString2 n) 10) = 10).
    { apply length_padStart_fit, length_toString2; simpl; lia. }
    rewrite readCount_flag1, (firstn_app_len _ _ 10 L), parseInt2_padStart by lia.
    cbn [length]; rewrite L; reflexivity.
Qed.

(** The reader on a bit string laid out as header, code, elements and
    anything after them. *)
Lemma readBits_layout header bitsCode w numbers post count :
  readCount (header ++ bitsCode ++ body w numbers ++ post) = (count, length header) ->
  length bitsCode = 2 ->
  widthOfCode bitsCode = Ok w ->
  readBits (header ++ bitsCode ++ body w numbers ++ post) =
  Ok (readNumbers (turns count)
        ((header ++ bitsCode) ++ body w numbers ++ post)
        (length (header ++ bitsCode)) w []).
Proof.
  intros Hc L Hw; unfold readBits; rewrite Hc.
  rewrite (substr_app_len header bitsCode _ 2 L), Hw; cbn [bind].
  rewrite length_app, L, <- app_assoc; reflexivity.
Qed.

(** ** Round trip *)

Lemma serialize_deserialize numbers :
  valid numbers -> length numbers <= 1023 ->
  exists s, serialize numbers = Ok s /\ deserialize s = Ok (map Int numbers).
Proof.
  intros V Hlen.
  destruct (serializeBits_ok numbers (valid_existsb numbers V)) as (bitsCode & Hcode & Hbits).
  destruct (bitsCodeOf_determineBitsPerNumber numbers) as (bitsCode' & Hcode' & Hlit & Hw).
  rewrite Hcode in Hcode'; injection Hcode' as <-.
  destruct (binary_lit_code bitsCode Hlit) as [Bcode Lcode].
  set (w := determineBitsPerNumber numbers) in *.
  eexists; split; [unfold serialize; rewrite Hbits; reflexivity|].
  unfold deserialize; rewrite fromBase64_toBase64; cbn [bind].
  - rewrite padToSix_app, <- !app_assoc.
    erewrite readBits_layout;
      [| apply readCount_lengthHeader, Hlen | exact Lcode | exact Hw].
    cbn [turns]; rewrite Nat2Z.id.
    rewrite readNumbers_body; [reflexivity|].
    intros x Hx; split; [specialize (V x Hx); lia | apply width_fits; assumption].
  - apply length_padToSix.
  - rewrite padToSix_app.
    repeat apply binary_app; auto using binary_lengthHeader, binary_repeat.
    apply binary_body; intros x Hx; specialize (V x Hx); lia.
Qed.

(** ** What the decoder checks, and what it does not *)

Lemma fromBase64Loop_binary serialized : forall acc bitStr,
  fromBase64Loop serialized acc = Ok bitStr -> binary acc -> binary bitStr.
Proof.
  induction serialized as [|ch rest IH]; intros acc bitStr H B.
  - injection H as <-; assumption.
  - rewrite fromBase64Loop_cons in H.
    destruct (Z.eqb_spec (indexOf BASE64_CHARS ch) (-1)) as [|Hi]; [discriminate|].
    apply (IH _ _ H), binary_app; [assumption|].
    apply binary_padStart, binary_toString2.
    pose proof (indexOf_range BASE64_CHARS ch); lia.
Qed.

(** The decoder only ever parses strings of binary digits. *)
Lemma fromBase64_binary serialized bitStr :
  fromBase64 serialized = Ok bitStr -> binary bitStr.
Proof. intro H; exact (fromBase64Loop_binary _ _ _ H binary_nil). Qed.

(** A string over the alphabet is always unpacked. *)
Lemma fromBase64Loop_inAlphabet serialized : forall acc,
  inAlphabet serialized -> exists bitStr, fromBase64Loop serialized acc = Ok bitStr.
Proof.
  induction serialized as [|ch rest IH]; intros acc H.
  - eexists; reflexivity.
  - rewrite fromBase64Loop_cons.
    destruct (Z.eqb_spec (indexOf BASE64_CHARS ch) (-1)) as [Hi|Hi].
    + exfalso; revert Hi; apply In_indexOf, H; now left.
    + apply IH; intros c Hc; apply H; now right.
Qed.

(** The first character outside the alphabet stops the decoder. *)
Lemma fromBase64Loop_invalid pre ch post : forall acc,
  inAlphabet pre -> ~ In ch BASE64_CHARS ->
  fromBase64Loop (pre ++ ch :: post) acc = Throw (InvalidCharacter ch).
Proof.
  induction pre as [|c pre IH]; intros acc Hpre Hch; cbn [app];
    rewrite fromBase64Loop_cons.
  - destruct (Z.eqb_spec (indexOf BASE64_CHARS ch) (-1)) as [|Hi]; [reflexivity|].
    exfalso; apply Hch, indexOf_In, Hi.
  - destruct (Z.eqb_spec (indexOf BASE64_CHARS c) (-1)) as [Hi|Hi].
    + exfalso; revert Hi; apply In_indexOf, Hpre; now left.
    + apply IH; [intros x Hx; apply Hpre; now right | assumption].
Qed.

(** A string with a character outside the alphabet splits at the first
    such character. *)
Lemma first_invalid s :
  (exists ch, In ch s /\ ~ In ch BASE64_CHARS) ->
  exists pre ch post,
    s = pre ++ ch :: post /\ inAlphabet pre /\ ~ In ch BASE64_CHARS.
Proof.
  induction s as [|c s IH]; intros (ch & Hin & Hch).
  - contradiction.
  - destruct (Z.eqb_spec (indexOf BASE64_CHARS c) (-1)) as [Hi|Hi].
    + exists [], c, s; repeat split.
      * intros x [].
      * intro Hc; exact (In_indexOf _ _ Hc Hi).
    + destruct Hin as [->|Hin]; [exfalso; apply Hch, indexOf_In, Hi|].
      destruct IH as (pre & ch' & post & -> & Hpre & Hch'); [eauto|].
      exists (c :: pre), ch', post; repeat split; [|assumption].
      intros x [<-|Hx]; [apply indexOf_In, Hi | apply Hpre, Hx].
Qed.

Lemma fromBase64Loop_throws serialized : forall acc e,
  fromBase64Loop serialized acc = Throw e ->
  exists ch, e = InvalidCharacter ch /\ In ch serialized /\ ~ In ch BASE64_CHARS.
Proof.
  induction serialized as [|c rest IH]; intros acc e H.
  - discriminate.
  - rewrite fromBase64Loop_cons in H.
    destruct (Z.eqb_spec (indexOf BASE64_CHARS c) (-1)) as [Hi|Hi].
    + injection H as <-; exists c; repeat split; [now left|].
      intro Hc; exact (In_indexOf _ _ Hc Hi).
    + destruct (IH _ _ H) as (ch & -> & Hin & Hch).
      exists ch; repeat split; [now right | assumption].
Qed.

(** The reader is the width-code check followed by blind reading. *)
Lemma readBits_width bitStr w :
  widthOfCode (substr bitStr (snd (readCount bitStr)) 2) = Ok w ->
  readBits bitStr =
  Ok (readNumbers (turns (fst (readCount bitStr))) bitStr
        (snd (readCount bitStr) + 2) w []).
Proof.
  intro H; unfold readBits; destruct (readCount bitStr) as [count pos].
  cbn [fst snd] in *; rewrite H; reflexivity.
Qed.

Lemma readBits_throw bitStr e :
  widthOfCode (substr bitStr (snd (readCount bitStr)) 2) = Throw e ->
  readBits bitStr = Throw e.
Proof.
  intro H; unfold readBits; destruct (readCount bitStr) as [count pos].
  cbn [fst snd] in *; rewrite H; reflexivity.
Qed.

Lemma widthOfCode_cases bitsCode :
  widthOfCode bitsCode = Throw InvalidWidthCode \/
  exists w, widthOfCode bitsCode = Ok w /\ (w = 4 \/ w = 7 \/ w = 9).
Proof.
  unfold widthOfCode.
  destruct (eqb bitsCode (lit "00")); [right; eauto|].
  destruct (eqb bitsCode (lit "01")); [right; eauto|].
  destruct (eqb bitsCode (lit "10")); [right; eauto 6|].
  now left.
Qed.

(** ** The count the reader can find *)

Lemma turns_parseInt2 s :
  binary s -> length s <= 10 -> turns (parseInt2 s) < 1024.
Proof.
  intros B L; destruct s as [|c s]; [simpl; lia|].
  rewrite parseInt2_binary by (assumption || discriminate); cbn [turns].
  pose proof (digits_bound (c :: s) 0 B ltac:(lia)) as [_ H].
  assert (2 ^ Z.of_nat (length (c :: s)) <= 2 ^ 10)%Z
    by (apply Z.pow_le_mono_r; lia).
  change (2 ^ 10)%Z with 1024%Z in *; lia.
Qed.

Lemma turns_readCount bitStr :
  binary bitStr -> turns (fst (readCount bitStr)) < 1024.
Proof.
  intro B; unfold readCount.
  assert (H : forall n, n <= 10 -> turns (parseInt2 (substr bitStr (0 + 1) n)) < 1024).
  { intros n Hn; apply turns_parseInt2; [auto with bin|].
    unfold substr; rewrite length_firstn; lia. }
  destruct (charAt bitStr 0) as [c|]; [|apply H; lia].
  destruct (ascii_dec c "0") as [->|Hc]; [apply H; lia|].
  destruct c as [[] [] [] [] [] [] [] []]; try (apply H; lia).
Qed.

(** Whatever the symbols, the decoder returns fewer than 1024 numbers. *)
Lemma readBits_length bitStr l :
  binary bitStr -> readBits bitStr = Ok l -> length l < 1024.
Proof.
  intros B H.
  destruct (widthOfCode_cases (substr bitStr (snd (readCount bitStr)) 2))
    as [E|(w & E & _)].
  - rewrite (readBits_throw _ _ E) in H; discriminate.
  - rewrite (readBits_width _ _ E) in H; injection H as <-.
    rewrite length_readNumbers; simpl; apply turns_readCount, B.
Qed.

Lemma deserialize_length serialized l :
  deserialize serialized = Ok l -> length l < 1024.
Proof.
  unfold deserialize; destruct (fromBase64 serialized) as [bitStr|e] eqn:E;
    cbn [bind]; [|discriminate].
  apply readBits_length, (fromBase64_binary _ _ E).
Qed.

(** ** The shape of the output *)

Lemma toBase64_shape bitStr :
  length bitStr mod 6 = 0 -> binary bitStr ->
  inAlphabet (toBase64 bitStr) /\ 6 * length (toBase64 bitStr) = length bitStr.
Proof.
  intro H; pattern bitStr; revert bitStr H; apply six_ind.
  - intros _; split; [intros c [] | reflexivity].
  - intros chunk rest L IH B.
    apply binary_app_inv in B; destruct B as [Bc Br].
    destruct (IH Br) as [IHa IHl].
    destruct (symbol_roundtrip chunk Bc L) as (c & Hc & Hi & _).
    rewrite toBase64_chunk, Hc by assumption; split.
    + intros x [<-|Hx]; [apply indexOf_In, Hi | apply IHa, Hx].
    + rewrite !length_app; cbn [length]; lia.
Qed.

Lemma length_body w numbers :
  (forall x, In x numbers -> length (toString2 x) <= w) ->
  length (body w numbers) = length numbers * w.
Proof.
  unfold body; induction numbers as [|x l IH]; intro H; simpl.
  - reflexivity.
  - rewrite length_app, IH by (intros y Hy; apply H; now right).
    rewrite length_padStart_fit by (apply H; now left); reflexivity.
Qed.

Lemma length_lengthHeader numbers :
  length numbers <= 1023 ->
  length (lengthHeader numbers) = if (length numbers <? 64)%nat then 7 else 11.
Proof.
  intro H; unfold lengthHeader.
  destruct (Nat.ltb_spec (length numbers) 64); cbn [length]; f_equal;
    apply length_padStart_fit, length_toString2; simpl; lia.
Qed.

Lemma length_padToSix_ceil bitStr :
  length (padToSix bitStr) = 6 * ceilDiv6 (length bitStr).
Proof.
  rewrite padToSix_app, length_app, repeat_length; unfold ceilDiv6.
  pose proof (Nat.mod_upper_bound (length bitStr) 6 ltac:(lia)) as Hr.
  pose proof (Nat.div_mod_eq (length bitStr) 6) as Hq.
  set (r := length bitStr mod 6) in *; set (q := length bitStr / 6) in *.
  rewrite Hq; clearbody q r; clear Hq.
  do 6 (destruct r as [|r];
        [cbn [Nat.sub Nat.modulo Nat.divmod fst snd];
         match goal with
         | |- _ = 6 * ((6 * q + ?a + 5) / 6) =>
             replace (6 * q + a + 5) with ((a + 5) + q * 6) by lia;
             rewrite Nat.div_add by lia; cbn; lia
         end|]).
  lia.
Qed.

Lemma valid_constant v n : (1 <= v <= 300)%Z -> valid (constant v n).
Proof. intros H x Hx; apply repeat_spec in Hx; subst; assumption. Qed.

Lemma length_constant v n : length (constant v n) = n.
Proof. apply repeat_length. Qed.

Lemma serialize_ok numbers :
  valid numbers -> exists s, serialize numbers = Ok s.
Proof.
  intro V.
  destruct (serializeBits_ok numbers (valid_existsb numbers V)) as (c & _ & H).
  unfold serialize; rewrite H; eexists; reflexivity.
Qed.

(** ** The header of a sequence of 1024 elements or more *)

(** The bit string of a valid sequence, and how it is packed and
    unpacked. *)
Lemma serialize_layout numbers :
  valid numbers ->
  exists bitsCode pad,
    (bitsCode = lit "00" \/ bitsCode = lit "01" \/ bitsCode = lit "10") /\
    bitsCodeOf (determineBitsPerNumber numbers) = Ok bitsCode /\
    widthOfCode bitsCode = Ok (determineBitsPerNumber numbers) /\
    let bitStr := lengthHeader numbers ++ bitsCode ++
                  body (determineBitsPerNumber numbers) numbers ++
                  repeat "0" pad in
    serializeBits numbers = Ok bitStr /\
    serialize numbers = Ok (toBase64 bitStr) /\
    fromBase64 (toBase64 bitStr) = Ok bitStr.
Proof.
  intro V.
  destruct (serializeBits_ok numbers (valid_existsb numbers V)) as (bitsCode & Hc & Hb).
  destruct (bitsCodeOf_determineBitsPerNumber numbers) as (c' & Hc' & Hlit & Hw).
  rewrite Hc in Hc'; injection Hc' as <-.
  rewrite padToSix_app, <- !app_assoc in Hb.
  exists bitsCode; eexists; split; [assumption|]; split; [assumption|].
  split; [assumption|]; cbv zeta.
  split; [exact Hb|]; split; [unfold serialize; rewrite Hb; reflexivity|].
  apply fromBase64_toBase64.
  - rewrite !app_assoc, <- padToSix_app; apply length_padToSix.
  - destruct (binary_lit_code bitsCode Hlit) as [Bc _].
    repeat apply binary_app; auto using binary_lengthHeader, binary_repeat.
    apply binary_body; intros x Hx; specialize (V x Hx); lia.
Qed.

Lemma length_bits_pos_lower p : forall w : nat,
  (2 ^ Z.of_nat w <= Zpos p)%Z -> w < length (bits_pos p []).
Proof.
  induction p as [q IH|q IH|]; intros w H; cbn [bits_pos].
  - rewrite bits_pos_acc, length_app; cbn [length].
    destruct w as [|w]; [lia|].
    rewrite Nat2Z.inj_succ, Z.pow_succ_r in H by lia.
    specialize (IH w); lia.
  - rewrite bits_pos_acc, length_app; cbn [length].
    destruct w as [|w]; [lia|].
    rewrite Nat2Z.inj_succ, Z.pow_succ_r in H by lia.
    specialize (IH w); lia.
  - destruct w as [|w]; [cbn; lia|].
    rewrite Nat2Z.inj_succ, Z.pow_succ_r in H by lia.
    assert (0 < 2 ^ Z.of_nat w)%Z by (apply Z.pow_pos_nonneg; lia); lia.
Qed.

Lemma bits_pos_head p : forall acc, exists t, bits_pos p acc = "1" :: t.
Proof.
  induction p as [q IH|q IH|]; intro acc; cbn [bits_pos];
    [apply IH | apply IH | eexists; reflexivity].
Qed.

(** The first [j] digits of a binary string are worth the whole string
    divided by two to the number of digits left out. *)
Lemma digits_firstn s j :
  binary s -> j <= length s ->
  digits (firstn j s) 0 = (digits s 0 / 2 ^ Z.of_nat (length s - j))%Z.
Proof.
  intros B Hj.
  pose proof (binary_firstn j s B) as Ba.
  pose proof (binary_skipn j s B) as Bb.
  rewrite <- (firstn_skipn j s) at 2.
  rewrite digits_app by assumption.
  pose proof (digits_bound (firstn j s) 0 Ba ltac:(lia)) as [Ha _].
  pose proof (digits_bound (skipn j s) (digits (firstn j s) 0) Bb ltac:(lia)) as [Hl Hu].
  rewrite length_skipn in Hl, Hu.
  set (P := (2 ^ Z.of_nat (length s - j))%Z) in *.
  assert (HP : (0 < P)%Z) by (apply Z.pow_pos_nonneg; lia).
  set (A := digits (firstn j s) 0) in *.
  set (X := digits (skipn j s) A) in *.
  apply Z.div_unique with (r := (X - P * A)%Z); nia.
Qed.

(** From 1024 elements on the count has more than ten binary digits and
    [padStart] leaves it whole. *)
Lemma lengthHeader_long numbers :
  1024 <= length numbers ->
  10 < length (toString2 (Z.of_nat (length numbers))) /\
  lengthHeader numbers = "1" :: toString2 (Z.of_nat (length numbers)).
Proof.
  intro H.
  assert (L : 10 < length (toString2 (Z.of_nat (length numbers)))).
  { destruct (Z.of_nat (length numbers)) as [|p|p] eqn:E; try lia.
    apply length_bits_pos_lower; simpl; lia. }
  split; [exact L|].
  unfold lengthHeader.
  destruct (Nat.ltb_spec (length numbers) 64) as [|_]; [lia|].
  unfold padStart.
  replace (10 - length (toString2 (Z.of_nat (length numbers)))) with 0 by lia.
  reflexivity.
Qed.

(** The ten digits the reader takes for the count, out of more. *)
Lemma first_ten_digits n :
  (1024 <= n)%Z ->
  exists c,
    parseInt2 (firstn 10 (toString2 n)) = Int c /\
    c = (n / 2 ^ Z.of_nat (length (toString2 n) - 10))%Z /\
    (512 <= c <= 1023)%Z /\ (c < n)%Z.
Proof.
  intro H.
  assert (B : binary (toString2 n)) by (apply binary_toString2; lia).
  assert (L : 10 < length (toString2 n)).
  { destruct n as [|p|p]; try lia. apply length_bits_pos_lower; simpl; lia. }
  assert (L10 : length (firstn 10 (toString2 n)) = 10)
    by (rewrite length_firstn; lia).
  exists (digits (firstn 10 (toString2 n)) 0).
  split; [|split; [|split]].
  - apply parseInt2_binary; [auto with bin|].
    intro E; rewrite E in L10; discriminate.
  - rewrite digits_firstn, digits_toString2 by (assumption || lia); reflexivity.
  - destruct n as [|p|p]; try lia; cbn [toString2] in *.
    destruct (bits_pos_head p []) as (t & Ht); rewrite Ht in *.
    change (firstn 10 ("1" :: t)) with ("1" :: firstn 9 t).
    change (digits ("1" :: firstn 9 t) 0) with (digits (firstn 9 t) 1).
    inversion B as [|? ? _ Bt]; subst.
    pose proof (digits_bound (firstn 9 t) 1 (binary_firstn 9 t Bt) ltac:(lia)) as R.
    replace (length (firstn 9 t)) with 9 in R
      by (rewrite length_firstn; cbn [length] in L; lia).
    change (2 ^ Z.of_nat 9)%Z with 512%Z in R; lia.
  - pose proof (digits_bound (firstn 10 (toString2 n)) 0 ltac:(auto with bin) ltac:(lia)) as [_ R].
    rewrite L10 in R; change (2 ^ Z.of_nat 10)%Z with 1024%Z in R; lia.
Qed.

(** What [serialize] writes for 1024 valid elements or more, and what
    [deserialize] makes of it: the count is read from the first ten
    digits of the length, the width code from what follows them. *)
Lemma long_layout numbers :
  valid numbers -> 1024 <= length numbers ->
  exists bitsCode rest,
    (bitsCode = lit "00" \/ bitsCode = lit "01" \/ bitsCode = lit "10") /\
    bitsCodeOf (determineBitsPerNumber numbers) = Ok bitsCode /\
    serializeBits numbers =
      Ok (("1" :: toString2 (Z.of_nat (length numbers))) ++ bitsCode ++ rest) /\
    serialize numbers =
      Ok (toBase64 (("1" :: toString2 (Z.of_nat (length numbers))) ++ bitsCode ++ rest)) /\
    fromBase64
      (toBase64 (("1" :: toString2 (Z.of_nat (length numbers))) ++ bitsCode ++ rest)) =
      Ok (("1" :: toString2 (Z.of_nat (length numbers))) ++ bitsCode ++ rest) /\
    readCount (("1" :: toString2 (Z.of_nat (length numbers))) ++ bitsCode ++ rest) =
      (parseInt2 (firstn 10 (toString2 (Z.of_nat (length numbers)))), 11) /\
    substr (("1" :: toString2 (Z.of_nat (length numbers))) ++ bitsCode ++ rest) 11 2 =
      firstn 2 (skipn 10 (toString2 (Z.of_nat (length numbers))) ++ bitsCode).
Proof.
  intros V H.
  destruct (serialize_layout numbers V) as (bitsCode & pad & Hlit & Hcode & _ & Hl).
  cbv zeta in Hl; destruct Hl as (Hb & Hs & Hf).
  destruct (lengthHeader_long numbers H) as [L Hh]; rewrite Hh in *.
  destruct (binary_lit_code bitsCode Hlit) as [_ Lc].
  set (T := toString2 (Z.of_nat (length numbers))) in *.
  exists bitsCode; eexists.
  split; [assumption|]; split; [assumption|].
  split; [exact Hb|]; split; [exact Hs|]; split; [exact Hf|]; split.
  - cbn [app]; rewrite readCount_flag1, firstn_app.
    replace (10 - length T) with 0 by lia.
    rewrite firstn_O, app_nil_r; reflexivity.
  - unfold substr; cbn [app]; rewrite skipn_cons.
    rewrite skipn_app; replace (10 - length T) with 0 by lia.
    rewrite skipn_O, app_assoc, firstn_app.
    replace (2 - length (skipn 10 T ++ bitsCode)) with 0
      by (rewrite length_app, Lc; lia).
    rewrite firstn_O; apply app_nil_r.
Qed.

(** * Properties of the codec, against its specification *)

(** C1, as amended: for every sequence whose elements all lie in 1..300
    and whose length is at least 1 and at most 1023,
    [deserialize (serialize S)] is [S]: the same values, in the same
    order, with the same length. *)
Theorem roundtrip_up_to_1023 numbers :
  valid numbers -> 1 <= length numbers <= 1023 ->
  exists s,
    serialize numbers = Ok s /\
    deserialize s = Ok (map Int numbers) /\
    lengthOf (deserialize s) = Some (length numbers).
Proof.
  intros V [_ H].
  destruct (serialize_deserialize numbers V H) as (s & Hs & Hd).
  exists s; repeat split; [assumption .. |].
  rewrite Hd; cbn [lengthOf]; rewrite length_map; reflexivity.
Qed.

Lemma roundtrip_up_to_1023_witness :
  exists s,
    serialize [1; 2; 3]%Z = Ok s /\
    deserialize s = Ok [Int 1; Int 2; Int 3] /\
    lengthOf (deserialize s) = Some 3.
Proof.
  apply (roundtrip_up_to_1023 [1; 2; 3]%Z).
  - intros x [<-|[<-|[<-|[]]]]; lia.
  - simpl; lia.
Defined.

(** C1 as stated fails on 1024 elements of value 1: the sequence is
    valid and not empty, it is encoded, and decoding the result gives 512
    numbers, not the 1024 of the input. *)
Lemma roundtrip_fails_at_1024 :
  valid (constant 1 1024) /\ 1 <= length (constant 1 1024) /\
  exists s,
    serialize (constant 1 1024) = Ok s /\
    lengthOf (deserialize s) = Some 512 /\
    deserialize s <> Ok (map Int (constant 1 1024)).
Proof.
  split; [apply valid_constant; lia|].
  split; [rewrite length_constant; lia|].
  eexists; split; [vm_compute; reflexivity|].
  split; [vm_compute; reflexivity|].
  intro H; apply (f_equal lengthOf) in H; vm_compute in H; discriminate H.
Qed.

(** C2: for every sequence whose elements all lie in 1..300 and whose
    length [n] is at least 1024, [serialize] raises no error and writes,
    after the flag 1, all the binary digits of [n], more than ten.  The
    reader takes the first ten for the count: it finds [n] divided by two
    to the number of digits left out, a count from 512 to 1023 and so
    less than [n]; it takes the digits left out, and then the written
    code, for the width code.  So [deserialize] either raises the
    invalid-width-code error or returns that many numbers; it never
    returns as many numbers as were encoded. *)
Theorem long_sequence_loses_count numbers :
  valid numbers -> 1024 <= length numbers ->
  exists bitsCode rest s c,
    10 < length (toString2 (Z.of_nat (length numbers))) /\
    (bitsCode = lit "00" \/ bitsCode = lit "01" \/ bitsCode = lit "10") /\
    serializeBits numbers =
      Ok (("1" :: toString2 (Z.of_nat (length numbers))) ++ bitsCode ++ rest) /\
    serialize numbers = Ok s /\
    fromBase64 s =
      Ok (("1" :: toString2 (Z.of_nat (length numbers))) ++ bitsCode ++ rest) /\
    readCount (("1" :: toString2 (Z.of_nat (length numbers))) ++ bitsCode ++ rest) =
      (Int c, 11) /\
    parseInt2 (firstn 10 (toString2 (Z.of_nat (length numbers)))) = Int c /\
    c = (Z.of_nat (length numbers) /
         2 ^ Z.of_nat (length (toString2 (Z.of_nat (length numbers))) - 10))%Z /\
    (512 <= c <= 1023)%Z /\
    (c < Z.of_nat (length numbers))%Z /\
    deserialize s =
      (w <- widthOfCode
              (firstn 2 (skipn 10 (toString2 (Z.of_nat (length numbers))) ++ bitsCode)) ;;
       Ok (readNumbers (Z.to_nat c)
             (("1" :: toString2 (Z.of_nat (length numbers))) ++ bitsCode ++ rest)
             13 w [])) /\
    (deserialize s = Throw InvalidWidthCode \/
     lengthOf (deserialize s) = Some (Z.to_nat c)) /\
    forall l, deserialize s = Ok l ->
      length l < 1024 /\ length l <> length numbers.
Proof.
  intros V H.
  destruct (long_layout numbers V H)
    as (bitsCode & rest & Hlit & _ & Hb & Hs & Hf & Hr & Hc).
  destruct (first_ten_digits (Z.of_nat (length numbers)) ltac:(lia))
    as (c & Hp & Hdiv & Hrange & Hlt).
  destruct (lengthHeader_long numbers H) as [L _].
  set (T := toString2 (Z.of_nat (length numbers))) in *.
  set (bitStr := ("1" :: T) ++ bitsCode ++ rest) in *.
  assert (Hd : deserialize (toBase64 bitStr) =
               (w <- widthOfCode (firstn 2 (skipn 10 T ++ bitsCode)) ;;
                Ok (readNumbers (Z.to_nat c) bitStr 13 w []))).
  { unfold deserialize; rewrite Hf; cbn [bind].
    unfold readBits; rewrite Hr, Hc, Hp; reflexivity. }
  exists bitsCode, rest, (toBase64 bitStr), c.
  rewrite Hp in Hr.
  repeat (split; [assumption|]).
  split.
  - rewrite Hd.
    destruct (widthOfCode_cases (firstn 2 (skipn 10 T ++ bitsCode)))
      as [E|(w & E & _)]; rewrite E; cbn [bind lengthOf].
    + now left.
    + right; rewrite length_readNumbers; reflexivity.
  - intros l Hl; apply deserialize_length in Hl; lia.
Qed.

Lemma long_sequence_loses_count_witness :
  exists s c,
    serialize (constant 1 1024) = Ok s /\
    c = 512%Z /\
    (deserialize s = Throw InvalidWidthCode \/
     lengthOf (deserialize s) = Some (Z.to_nat c)).
Proof.
  destruct (long_sequence_loses_count (constant 1 1024)
              (valid_constant 1 1024 ltac:(lia))
              ltac:(rewrite length_constant; apply le_n))
    as (bitsCode & rest & s & c & _ & _ & _ & Hs & _ & _ & _ & Hc & _ & _ & _ & Hd & _).
  exists s, c; split; [exact Hs|]; split; [|exact Hd].
  rewrite Hc; vm_compute; reflexivity.
Defined.

(** On a long sequence the decoder can also stop on the width code: with
    1025 elements of value 100 the last bit of the length and the first
    bit of the code are read as the code 11. *)
Lemma long_sequence_can_throw :
  exists s,
    serialize (constant 100 1025) = Ok s /\
    deserialize s = Throw InvalidWidthCode.
Proof.
  eexists; split; vm_compute; reflexivity.
Qed.

(** C3: for every non-empty sequence the width selector returns 4 if the
    maximum element is less than 10, 7 if it is less than 100, and 9
    otherwise; so the two-bit code [serialize] computes is one of 00, 01,
    10, it is what follows the length header in the bit string, and the
    unsupported-width error of [serialize] is never raised. *)
Theorem width_selector_codes numbers :
  (numbers <> [] ->
   exists m, is_max m numbers /\
     determineBitsPerNumber numbers =
     if (m <? 10)%Z then 4 else if (m <? 100)%Z then 7 else 9) /\
  (exists bitsCode,
     bitsCodeOf (determineBitsPerNumber numbers) = Ok bitsCode /\
     (bitsCode = lit "00" \/ bitsCode = lit "01" \/ bitsCode = lit "10")) /\
  (forall bitStr, serializeBits numbers = Ok bitStr ->
     exists bitsCode rest,
       bitStr = lengthHeader numbers ++ bitsCode ++ rest /\
       (bitsCode = lit "00" \/ bitsCode = lit "01" \/ bitsCode = lit "10")) /\
  serializeBits numbers <> Throw UnsupportedWidth /\
  serialize numbers <> Throw UnsupportedWidth.
Proof.
  destruct (bitsCodeOf_determineBitsPerNumber numbers) as (bitsCode & Hc & Hlit & _).
  assert (Hbits : serializeBits numbers = Throw RangeError \/
                  serializeBits numbers =
                  Ok (padToSix (lengthHeader numbers ++ bitsCode ++
                                body (determineBitsPerNumber numbers) numbers))).
  { destruct (existsb outOfRange numbers) eqn:E.
    - left; unfold serializeBits; rewrite E; reflexivity.
    - right; destruct (serializeBits_ok numbers E) as (c & Hc' & H).
      rewrite Hc in Hc'; injection Hc' as <-; exact H. }
  split; [|split; [|split; [|split]]].
  - intro Hne; destruct (Math_max_is_max numbers Hne) as (m & _ & Hm).
    exists m; split; [assumption | apply determineBitsPerNumber_is_max, Hm].
  - exists bitsCode; split; assumption.
  - intros bitStr H; destruct Hbits as [E|E]; rewrite E in H; [discriminate|].
    injection H as <-; rewrite padToSix_app, <- !app_assoc.
    eexists; eexists; split; [reflexivity | assumption].
  - destruct Hbits as [E|E]; rewrite E; discriminate.
  - unfold serialize; destruct Hbits as [E|E]; rewrite E; discriminate.
Qed.

Lemma width_selector_codes_witness :
  exists m, is_max m [5; 42; 7]%Z /\
    determineBitsPerNumber [5; 42; 7]%Z =
    if (m <? 10)%Z then 4 else if (m <? 100)%Z then 7 else 9.
Proof.
  apply (proj1 (width_selector_codes [5; 42; 7]%Z)); discriminate.
Defined.

(** C4: [serialize] raises the range error if and only if some element
    lies outside 1..300; the error comes from the bit writer's first
    step, so no bit string and no output exist then.  In particular
    [serialize [0]] and [serialize [301]] fail with it. *)
Theorem range_error_iff :
  (forall numbers,
     serialize numbers = Throw RangeError <->
     exists x, In x numbers /\ (x < 1 \/ x > 300)%Z) /\
  (forall numbers,
     (exists x, In x numbers /\ (x < 1 \/ x > 300)%Z) ->
     serializeBits numbers = Throw RangeError /\
     forall s, serialize numbers <> Ok s) /\
  serialize [0%Z] = Throw RangeError /\
  serialize [301%Z] = Throw RangeError.
Proof.
  assert (Hthrow : forall numbers,
             (exists x, In x numbers /\ (x < 1 \/ x > 300)%Z) ->
             serializeBits numbers = Throw RangeError).
  { intros numbers H; apply existsb_outOfRange in H.
    unfold serializeBits; rewrite H; reflexivity. }
  split; [|split; [|split; reflexivity]].
  - intro numbers; split.
    + intro H; apply existsb_outOfRange.
      destruct (existsb outOfRange numbers) eqn:E; [reflexivity|].
      destruct (serializeBits_ok numbers E) as (c & _ & Hb).
      unfold serialize in H; rewrite Hb in H; discriminate H.
    + intro H; unfold serialize; rewrite (Hthrow numbers H); reflexivity.
  - intros numbers H; split; [apply Hthrow, H|].
    intro s; unfold serialize; rewrite (Hthrow numbers H); discriminate.
Qed.

Lemma range_error_iff_witness : serialize [7; 0; 9]%Z = Throw RangeError.
Proof.
  apply (proj1 range_error_iff [7; 0; 9]%Z).
  exists 0%Z; split; [right; left; reflexivity | left; lia].
Defined.

Lemma inAlphabet_cons c s :
  indexOf BASE64_CHARS c <> (-1)%Z -> inAlphabet s -> inAlphabet (c :: s).
Proof. intros Hc Hs x [<-|Hx]; [apply indexOf_In, Hc | apply Hs, Hx]. Qed.

Lemma inAlphabet_nil : inAlphabet [].
Proof. intros x []. Qed.

(** Settles [inAlphabet] on a literal. *)
Ltac in_alphabet :=
  repeat (apply inAlphabet_cons; [vm_compute; discriminate|]);
  apply inAlphabet_nil.

(** C5: [deserialize] raises the invalid-character error, carrying the
    offending character, whenever its input holds a character outside the
    64-symbol alphabet: the first such character is the one reported.  In
    particular [deserialize "#"] fails with it. *)
Theorem invalid_character :
  length BASE64_CHARS = 64 /\
  (forall pre ch post,
     inAlphabet pre -> ~ In ch BASE64_CHARS ->
     deserialize (pre ++ ch :: post) = Throw (InvalidCharacter ch)) /\
  (forall serialized,
     (exists ch, In ch serialized /\ ~ In ch BASE64_CHARS) ->
     exists ch,
       In ch serialized /\ ~ In ch BASE64_CHARS /\
       deserialize serialized = Throw (InvalidCharacter ch)) /\
  deserialize (lit "#") = Throw (InvalidCharacter "#").
Proof.
  assert (H : forall pre ch post,
             inAlphabet pre -> ~ In ch BASE64_CHARS ->
             deserialize (pre ++ ch :: post) = Throw (InvalidCharacter ch)).
  { intros pre ch post Hpre Hch; unfold deserialize, fromBase64.
    rewrite fromBase64Loop_invalid by assumption; reflexivity. }
  split; [reflexivity|]; split; [exact H|]; split; [|reflexivity].
  intros serialized Hbad.
  destruct (first_invalid serialized Hbad) as (pre & ch & post & -> & Hpre & Hch).
  exists ch; split; [apply in_elt|]; split; [assumption | apply H; assumption].
Qed.

Lemma invalid_character_witness :
  deserialize (lit "Bg#kY") = Throw (InvalidCharacter "#").
Proof.
  apply (proj1 (proj2 invalid_character) (lit "Bg") "#" (lit "kY")).
  - in_alphabet.
  - intro H; apply In_indexOf in H; apply H; reflexivity.
Defined.

(** C6: [deserialize] raises the invalid-width-code error when the two
    bits it reads as width code are 11; the codes 00, 01 and 10 make it
    read the elements on 4, 7 and 9 bits. *)
Theorem invalid_width_code :
  (forall serialized bitStr,
     fromBase64 serialized = Ok bitStr ->
     substr bitStr (snd (readCount bitStr)) 2 = lit "11" ->
     deserialize serialized = Throw InvalidWidthCode) /\
  (forall serialized bitStr bitsCode w,
     fromBase64 serialized = Ok bitStr ->
     substr bitStr (snd (readCount bitStr)) 2 = bitsCode ->
     (bitsCode = lit "00" /\ w = 4) \/
     (bitsCode = lit "01" /\ w = 7) \/
     (bitsCode = lit "10" /\ w = 9) ->
     deserialize serialized =
     Ok (readNumbers (turns (fst (readCount bitStr))) bitStr
           (snd (readCount bitStr) + 2) w [])) /\
  widthOfCode (lit "00") = Ok 4 /\
  widthOfCode (lit "01") = Ok 7 /\
  widthOfCode (lit "10") = Ok 9 /\
  widthOfCode (lit "11") = Throw InvalidWidthCode /\
  deserialize (lit "A4") = Throw InvalidWidthCode.
Proof.
  split; [|split; [|repeat split]].
  - intros serialized bitStr Hb Hc; unfold deserialize; rewrite Hb; cbn [bind].
    apply readBits_throw; rewrite Hc; reflexivity.
  - intros serialized bitStr bitsCode w Hb Hc Hw.
    unfold deserialize; rewrite Hb; cbn [bind].
    apply readBits_width; rewrite Hc.
    destruct Hw as [[-> ->]|[[-> ->]|[-> ->]]]; reflexivity.
Qed.

Lemma invalid_width_code_witness :
  deserialize (lit "A4") = Throw InvalidWidthCode.
Proof.
  apply (proj1 invalid_width_code (lit "A4") (lit "000000111000"));
    reflexivity.
Defined.

(** C7: a sequence of exactly 63 valid elements is written with length
    flag 0 and the six-bit length field 111111, one of exactly 64 valid
    elements with length flag 1 and the ten-bit field 0001000000, the
    width code following at once; in both cases the reader finds the
    count (63, 64) in the header and returns that many elements. *)
Theorem length_field_boundary numbers :
  valid numbers ->
  (length numbers = 63 ->
   exists bitsCode rest s,
     serializeBits numbers = Ok (lit "0111111" ++ bitsCode ++ rest) /\
     (bitsCode = lit "00" \/ bitsCode = lit "01" \/ bitsCode = lit "10") /\
     readCount (lit "0111111" ++ bitsCode ++ rest) = (Int 63, 7) /\
     serialize numbers = Ok s /\
     fromBase64 s = Ok (lit "0111111" ++ bitsCode ++ rest) /\
     lengthOf (deserialize s) = Some 63) /\
  (length numbers = 64 ->
   exists bitsCode rest s,
     serializeBits numbers = Ok (lit "10001000000" ++ bitsCode ++ rest) /\
     (bitsCode = lit "00" \/ bitsCode = lit "01" \/ bitsCode = lit "10") /\
     readCount (lit "10001000000" ++ bitsCode ++ rest) = (Int 64, 11) /\
     serialize numbers = Ok s /\
     fromBase64 s = Ok (lit "10001000000" ++ bitsCode ++ rest) /\
     lengthOf (deserialize s) = Some 64).
Proof.
  intro V.
  destruct (serializeBits_ok numbers (valid_existsb numbers V)) as (bitsCode & Hc & Hb).
  destruct (bitsCodeOf_determineBitsPerNumber numbers) as (c' & Hc' & Hlit & _).
  rewrite Hc in Hc'; injection Hc' as <-.
  rewrite padToSix_app, <- !app_assoc in Hb.
  assert (Hround : forall header,
             lengthHeader numbers = header -> length numbers <= 1023 ->
             exists rest s,
               serializeBits numbers = Ok (header ++ bitsCode ++ rest) /\
               serialize numbers = Ok s /\
               fromBase64 s = Ok (header ++ bitsCode ++ rest) /\
               lengthOf (deserialize s) = Some (length numbers)).
  { intros header <- Hlen.
    destruct (serialize_deserialize numbers V Hlen) as (s & Hs & Hd).
    eexists; exists s; split; [exact Hb|]; split; [assumption|]; split.
    - unfold serialize in Hs; rewrite Hb in Hs; injection Hs as <-.
      apply fromBase64_toBase64.
      + rewrite !app_assoc, <- padToSix_app; apply length_padToSix.
      + destruct (binary_lit_code bitsCode Hlit) as [Bc _].
        repeat apply binary_app; auto using binary_lengthHeader, binary_repeat.
        apply binary_body; intros x Hx; specialize (V x Hx); lia.
    - rewrite Hd; cbn [lengthOf]; rewrite length_map; reflexivity. }
  split; intro Hlen.
  - destruct (Hround (lit "0111111")) as (rest & s & H1 & H2 & H3 & H4);
      [unfold lengthHeader; rewrite Hlen; reflexivity | lia |].
    exists bitsCode, rest, s; rewrite Hlen in H4.
    repeat split; assumption || reflexivity.
  - destruct (Hround (lit "10001000000")) as (rest & s & H1 & H2 & H3 & H4);
      [unfold lengthHeader; rewrite Hlen; reflexivity | lia |].
    exists bitsCode, rest, s; rewrite Hlen in H4.
    repeat split; assumption || reflexivity.
Qed.

Lemma length_field_boundary_witness :
  (exists bitsCode rest s,
     serializeBits (constant 7 63) = Ok (lit "0111111" ++ bitsCode ++ rest) /\
     (bitsCode = lit "00" \/ bitsCode = lit "01" \/ bitsCode = lit "10") /\
     readCount (lit "0111111" ++ bitsCode ++ rest) = (Int 63, 7) /\
     serialize (constant 7 63) = Ok s /\
     fromBase64 s = Ok (lit "0111111" ++ bitsCode ++ rest) /\
     lengthOf (deserialize s) = Some 63) /\
  (exists bitsCode rest s,
     serializeBits (constant 7 64) = Ok (lit "10001000000" ++ bitsCode ++ rest) /\
     (bitsCode = lit "00" \/ bitsCode = lit "01" \/ bitsCode = lit "10") /\
     readCount (lit "10001000000" ++ bitsCode ++ rest) = (Int 64, 11) /\
     serialize (constant 7 64) = Ok s /\
     fromBase64 s = Ok (lit "10001000000" ++ bitsCode ++ rest) /\
     lengthOf (deserialize s) = Some 64).
Proof.
  split.
  - apply (proj1 (length_field_boundary (constant 7 63)
                    (valid_constant 7 63 ltac:(lia)))).
    reflexivity.
  - apply (proj2 (length_field_boundary (constant 7 64)
                    (valid_constant 7 64 ltac:(lia)))).
    reflexivity.
Defined.

(** C8, as amended: for every valid input sequence the string returned by
    [serialize] holds only characters of the 64-symbol alphabet, the
    padded bit string has a length that is a multiple of 6 and six times
    that of the output, and, when the sequence has at most 1023 elements,
    the output has exactly [ceil(totalBits / 6)] characters, where
    [totalBits] is 9 (count below 64) or 13 plus the count times the
    selected width. *)
Theorem output_shape numbers :
  valid numbers ->
  exists bitStr s,
    serializeBits numbers = Ok bitStr /\
    serialize numbers = Ok s /\
    inAlphabet s /\
    length bitStr mod 6 = 0 /\
    length bitStr = 6 * length s /\
    (length numbers <= 1023 ->
     length s =
     ceilDiv6 ((if (length numbers <? 64)%nat then 9 else 13) +
               length numbers * determineBitsPerNumber numbers)).
Proof.
  intro V.
  destruct (serializeBits_ok numbers (valid_existsb numbers V)) as (bitsCode & Hc & Hb).
  destruct (bitsCodeOf_determineBitsPerNumber numbers) as (c' & Hc' & Hlit & _).
  rewrite Hc in Hc'; injection Hc' as <-.
  destruct (binary_lit_code bitsCode Hlit) as [Bc Lc].
  set (w := determineBitsPerNumber numbers) in *.
  set (raw := lengthHeader numbers ++ bitsCode ++ body w numbers) in *.
  assert (Braw : binary (padToSix raw)).
  { rewrite padToSix_app; subst raw.
    repeat apply binary_app; auto using binary_lengthHeader, binary_repeat.
    apply binary_body; intros x Hx; specialize (V x Hx); lia. }
  destruct (toBase64_shape (padToSix raw) (length_padToSix raw) Braw) as [Ha Hl].
  exists (padToSix raw), (toBase64 (padToSix raw)).
  split; [assumption|].
  split; [unfold serialize; rewrite Hb; reflexivity|].
  split; [assumption|].
  split; [apply length_padToSix|].
  split; [symmetry; assumption|].
  intro Hlen.
  rewrite length_padToSix_ceil in Hl.
  assert (Lraw : length raw =
                 (if (length numbers <? 64)%nat then 9 else 13) + length numbers * w).
  { subst raw; rewrite !length_app, Lc, length_lengthHeader by assumption.
    rewrite length_body by (intros x Hx; apply width_fits; assumption).
    destruct (length numbers <? 64)%nat; lia. }
  rewrite <- Lraw; lia.
Qed.

Lemma output_shape_witness :
  exists bitStr s,
    serializeBits [1; 2; 3]%Z = Ok bitStr /\
    serialize [1; 2; 3]%Z = Ok s /\
    inAlphabet s /\
    length bitStr mod 6 = 0 /\
    length bitStr = 6 * length s /\
    (3 <= 1023 -> length s = ceilDiv6 (9 + 3 * 4)).
Proof.
  apply (output_shape [1; 2; 3]%Z).
  intros x [<-|[<-|[<-|[]]]]; lia.
Defined.

(** C8 as stated fails on 1025 elements of value 10: the width is 7, the
    claimed size is [ceil((13 + 1025 * 7) / 6)], that is 1198 characters,
    and the output has 1199, the length field taking 11 bits. *)
Lemma output_length_fails_at_1025 :
  valid (constant 10 1025) /\
  determineBitsPerNumber (constant 10 1025) = 7 /\
  ceilDiv6 (13 + length (constant 10 1025) * 7) = 1198 /\
  exists s, serialize (constant 10 1025) = Ok s /\ length s = 1199.
Proof.
  split; [apply valid_constant; lia|].
  split; [vm_compute; reflexivity|].
  split; [vm_compute; reflexivity|].
  eexists; split; vm_compute; reflexivity.
Qed.

(** C9: [serialize []] does not fail.  The maximum of no element is
    [-Infinity], below every threshold, so the width is 4; the bit string
    is the header alone (flag 0, count 000000, code 00) padded to 12
    bits, the output has the two characters AA, and decoding it gives the
    empty sequence. *)
Theorem empty_sequence :
  Math_max [] = NegInfinity /\
  determineBitsPerNumber [] = 4 /\
  serializeBits [] = Ok (lit "0" ++ lit "000000" ++ lit "00" ++ lit "000") /\
  serialize [] = Ok (lit "AA") /\
  deserialize (lit "AA") = Ok [] /\
  (s <- serialize [] ;; deserialize s) = Ok [].
Proof.
  split; [reflexivity|].
  split; [unfold determineBitsPerNumber; rewrite Math_max_nil; reflexivity|].
  assert (Hs : serialize [] = Ok (lit "AA")) by (vm_compute; reflexivity).
  assert (Hd : deserialize (lit "AA") = Ok []) by (vm_compute; reflexivity).
  split; [vm_compute; reflexivity|].
  split; [exact Hs|]; split; [exact Hd|].
  rewrite Hs; exact Hd.
Qed.

(** C10: besides the alphabet check and the width-code check
    [deserialize] validates nothing.  On any string over the alphabet it
    returns what blind reading gives as soon as the width code is one of
    the three known, whatever the number of bits left and whatever the
    values read; its only errors are the two kinds.  So "A3/" (count 1,
    width 9, element bits 111111111) decodes to 511, and "Bg" (count 3,
    width 4, with three bits left) decodes to 0 followed by two [NaN]:
    values outside 1..300, and no error. *)
Theorem decoder_unchecked :
  (forall serialized,
     inAlphabet serialized ->
     exists bitStr,
       fromBase64 serialized = Ok bitStr /\
       forall w,
         widthOfCode (substr bitStr (snd (readCount bitStr)) 2) = Ok w ->
         deserialize serialized =
         Ok (readNumbers (turns (fst (readCount bitStr))) bitStr
               (snd (readCount bitStr) + 2) w [])) /\
  (forall serialized e,
     deserialize serialized = Throw e ->
     e = InvalidWidthCode \/
     exists ch, e = InvalidCharacter ch /\ In ch serialized /\ ~ In ch BASE64_CHARS) /\
  (inAlphabet (lit "A3/") /\
   fromBase64 (lit "A3/") = Ok (lit "0" ++ lit "000001" ++ lit "10" ++ lit "111111111") /\
   deserialize (lit "A3/") = Ok [Int 511]) /\
  (inAlphabet (lit "Bg") /\
   fromBase64 (lit "Bg") = Ok (lit "0" ++ lit "000011" ++ lit "00" ++ lit "000") /\
   deserialize (lit "Bg") = Ok [Int 0; NaN; NaN]).
Proof.
  split; [|split; [|split]].
  - intros serialized Ha.
    destruct (fromBase64Loop_inAlphabet serialized [] Ha) as (bitStr & Hb).
    exists bitStr; split; [exact Hb|].
    intros w Hw; unfold deserialize, fromBase64; rewrite Hb; cbn [bind].
    apply readBits_width, Hw.
  - intros serialized e; unfold deserialize.
    destruct (fromBase64 serialized) as [bitStr|e'] eqn:Hb; cbn [bind].
    + intro H; left.
      destruct (widthOfCode_cases (substr bitStr (snd (readCount bitStr)) 2))
        as [E|(w & E & _)].
      * rewrite (readBits_throw _ _ E) in H; congruence.
      * rewrite (readBits_width _ _ E) in H; discriminate H.
    + intro H; injection H as <-; right.
      apply (fromBase64Loop_throws serialized [] e' Hb).
  - split; [in_alphabet | split; vm_compute; reflexivity].
  - split; [in_alphabet | split; vm_compute; reflexivity].
Qed.

Lemma decoder_unchecked_witness :
  deserialize (lit "A3/") =
  Ok (readNumbers 1 (lit "000000110111111111") 9 9 []).
Proof.
  destruct (proj1 decoder_unchecked (lit "A3/") ltac:(in_alphabet))
    as (bitStr & Hb & H).
  vm_compute in Hb; injection Hb as <-.
  apply (H 9); reflexivity.
Defined.

(** * Further properties *)

(** ** The packer, both ways *)

Lemma fromBase64Loop_app s1 : forall s2 acc b1,
  fromBase64Loop s1 acc = Ok b1 ->
  fromBase64Loop (s1 ++ s2) acc = fromBase64Loop s2 b1.
Proof.
  induction s1 as [|c s1 IH]; intros s2 acc b1 H.
  - injection H as <-; reflexivity.
  - cbn [app]; rewrite fromBase64Loop_cons in *.
    destruct (indexOf BASE64_CHARS c =? -1)%Z; [discriminate|].
    apply IH, H.
Qed.

(** The six bits of a symbol of the alphabet name that symbol. *)
Lemma symbol_bits c :
  In c BASE64_CHARS ->
  binary (padStart (toString2 (indexOf BASE64_CHARS c)) 6) /\
  length (padStart (toString2 (indexOf BASE64_CHARS c)) 6) = 6 /\
  charAtNumber BASE64_CHARS
    (parseInt2 (padStart (toString2 (indexOf BASE64_CHARS c)) 6)) = [c].
Proof.
  intro H; split.
  - apply binary_padStart, binary_toString2.
    pose proof (indexOf_range BASE64_CHARS c) as R.
    apply In_indexOf in H; lia.
  - vm_compute in H.
    repeat (destruct H as [<-|H]; [split; vm_compute; reflexivity|]).
    contradiction.
Qed.

Lemma fromBase64Loop_bits serialized : forall acc,
  inAlphabet serialized ->
  exists bitStr,
    fromBase64Loop serialized acc = Ok (acc ++ bitStr) /\
    binary bitStr /\
    length bitStr = 6 * length serialized /\
    toBase64 bitStr = serialized.
Proof.
  induction serialized as [|c rest IH]; intros acc H.
  - exists []; rewrite app_nil_r; repeat split; constructor.
  - assert (Hc : In c BASE64_CHARS) by (apply H; now left).
    destruct (symbol_bits c Hc) as (Bc & Lc & Sc).
    destruct (IH (acc ++ padStart (toString2 (indexOf BASE64_CHARS c)) 6))
      as (bits & Hb & Bb & Lb & Tb); [intros x Hx; apply H; now right|].
    exists (padStart (toString2 (indexOf BASE64_CHARS c)) 6 ++ bits).
    rewrite fromBase64Loop_cons.
    destruct (Z.eqb_spec (indexOf BASE64_CHARS c) (-1)) as [E|_];
      [exfalso; exact (In_indexOf _ _ Hc E)|].
    rewrite Hb, <- app_assoc; split; [reflexivity|].
    split; [apply binary_app; assumption|].
    split; [rewrite length_app, Lc, Lb; cbn [length]; lia|].
    rewrite toBase64_chunk, Sc, Tb by assumption; reflexivity.
Qed.

(** X1: every string over the alphabet is unpacked into a string of
    binary digits, six per symbol, and packing that bit string gives the
    symbols back. *)
Theorem unpack_then_pack serialized :
  inAlphabet serialized ->
  exists bitStr,
    fromBase64 serialized = Ok bitStr /\
    binary bitStr /\
    length bitStr = 6 * length serialized /\
    toBase64 bitStr = serialized.
Proof.
  intro H; destruct (fromBase64Loop_bits serialized [] H) as (bits & Hb & R).
  exists bits; split; [exact Hb | exact R].
Qed.

Lemma unpack_then_pack_witness :
  exists bitStr,
    fromBase64 (lit "BgkY") = Ok bitStr /\
    binary bitStr /\
    length bitStr = 24 /\
    toBase64 bitStr = lit "BgkY".
Proof.
  apply (unpack_then_pack (lit "BgkY")); in_alphabet.
Defined.

(** ** The reader on what the writer wrote *)

(** The reader gives a valid sequence of at most 1023 elements back from
    its header, code and element bits, whatever comes after them. *)
Lemma readBits_written numbers bitsCode post :
  valid numbers -> length numbers <= 1023 ->
  length bitsCode = 2 ->
  widthOfCode bitsCode = Ok (determineBitsPerNumber numbers) ->
  readBits (lengthHeader numbers ++ bitsCode ++
            body (determineBitsPerNumber numbers) numbers ++ post) =
  Ok (map Int numbers).
Proof.
  intros V Hlen Lc Hw.
  erewrite readBits_layout;
    [| apply readCount_lengthHeader, Hlen | exact Lc | exact Hw].
  cbn [turns]; rewrite Nat2Z.id.
  rewrite readNumbers_body; [reflexivity|].
  intros x Hx; split; [specialize (V x Hx); lia | apply width_fits; assumption].
Qed.

Lemma map_Int_inj a b : map Int a = map Int b -> a = b.
Proof.
  revert b; induction a as [|x a IH]; intros [|y b] H; try discriminate.
  - reflexivity.
  - injection H as -> H; f_equal; apply IH, H.
Qed.

(** X2: on valid sequences of at most 1023 elements [serialize] is
    injective: two sequences with the same output are the same, and two
    different sequences have different outputs. *)
Theorem serialize_injective a b :
  valid a -> valid b -> length a <= 1023 -> length b <= 1023 ->
  (serialize a = serialize b -> a = b) /\
  (a <> b -> serialize a <> serialize b).
Proof.
  intros Va Vb La Lb.
  assert (H : serialize a = serialize b -> a = b).
  { intro E.
    destruct (serialize_deserialize a Va La) as (sa & Ha & Da).
    destruct (serialize_deserialize b Vb Lb) as (sb & Hb & Db).
    rewrite Ha, Hb in E; injection E as <-.
    rewrite Da in Db; injection Db as Db; apply map_Int_inj, Db. }
  split; [exact H | intros Hne E; exact (Hne (H E))].
Qed.

Lemma serialize_injective_witness :
  serialize [1; 2; 3]%Z <> serialize [1; 2; 4]%Z.
Proof.
  apply (serialize_injective [1; 2; 3]%Z [1; 2; 4]%Z);
    try (intros x [<-|[<-|[<-|[]]]]; lia); try (simpl; lia).
  discriminate.
Defined.

(** X3: symbols after the output of [serialize] are ignored: for a valid
    sequence of at most 1023 elements, decoding the output followed by
    any symbols of the alphabet still gives the sequence. *)
Theorem trailing_symbols_ignored numbers extra :
  valid numbers -> length numbers <= 1023 -> inAlphabet extra ->
  exists s,
    serialize numbers = Ok s /\
    deserialize (s ++ extra) = Ok (map Int numbers).
Proof.
  intros V Hlen He.
  destruct (serialize_layout numbers V) as (bitsCode & pad & Hlit & _ & Hw & H).
  cbv zeta in H; destruct H as (_ & Hs & Hf).
  destruct (binary_lit_code bitsCode Hlit) as [_ Lc].
  eexists; split; [exact Hs|].
  unfold deserialize, fromBase64.
  rewrite (fromBase64Loop_app _ extra [] _ Hf).
  destruct (fromBase64Loop_bits extra
              (lengthHeader numbers ++ bitsCode ++
               body (determineBitsPerNumber numbers) numbers ++ repeat "0" pad) He)
    as (bits & Hb & _).
  rewrite Hb; cbn [bind]; rewrite <- !app_assoc.
  apply readBits_written; assumption.
Qed.

Lemma trailing_symbols_ignored_witness :
  exists s,
    serialize [1; 2; 3]%Z = Ok s /\
    deserialize (s ++ lit "zz/") = Ok [Int 1; Int 2; Int 3].
Proof.
  apply (trailing_symbols_ignored [1; 2; 3]%Z (lit "zz/")).
  - intros x [<-|[<-|[<-|[]]]]; lia.
  - simpl; lia.
  - in_alphabet.
Defined.

(** ** What the decoder can return *)

Lemma parseInt2_range s w :
  binary s -> length s <= w ->
  parseInt2 s = NaN \/
  exists z, parseInt2 s = Int z /\ (0 <= z < 2 ^ Z.of_nat w)%Z.
Proof.
  intros B L; destruct s as [|c s]; [now left|right].
  rewrite parseInt2_binary by (assumption || discriminate).
  eexists; split; [reflexivity|].
  pose proof (digits_bound (c :: s) 0 B ltac:(lia)) as [H0 H1].
  assert (2 ^ Z.of_nat (length (c :: s)) <= 2 ^ Z.of_nat w)%Z
    by (apply Z.pow_le_mono_r; lia).
  lia.
Qed.

Lemma readNumbers_In n bitStr w : forall pos acc v,
  In v (readNumbers n bitStr pos w acc) ->
  In v acc \/ exists p, v = parseInt2 (substr bitStr p w).
Proof.
  induction n as [|n IH]; intros pos acc v H; cbn [readNumbers] in H.
  - now left.
  - destruct (IH _ _ _ H) as [Hin|Hp]; [|now right].
    apply in_app_or in Hin; destruct Hin as [Hin|[<-|[]]]; [now left|].
    right; eexists; reflexivity.
Qed.

Lemma length_substr s p n : length (substr s p n) <= n.
Proof. unfold substr; rewrite length_firstn; lia. Qed.

(** X4: whatever its input, [deserialize] returns fewer than 1024
    numbers, each of them [NaN] or an integer between 0 and 511: never a
    negative number, never more than nine bits. *)
Theorem decoded_values_bounded serialized l :
  deserialize serialized = Ok l ->
  length l < 1024 /\
  forall v, In v l -> v = NaN \/ exists z, v = Int z /\ (0 <= z <= 511)%Z.
Proof.
  intro H; split; [exact (deserialize_length _ _ H)|].
  unfold deserialize in H.
  destruct (fromBase64 serialized) as [bitStr|e] eqn:Hb; cbn [bind] in H;
    [|discriminate].
  pose proof (fromBase64_binary _ _ Hb) as B.
  destruct (widthOfCode_cases (substr bitStr (snd (readCount bitStr)) 2))
    as [E|(w & E & Hw)].
  - rewrite (readBits_throw _ _ E) in H; discriminate.
  - rewrite (readBits_width _ _ E) in H; injection H as <-.
    intros v Hv; apply readNumbers_In in Hv; destruct Hv as [[] | (p & ->)].
    destruct (parseInt2_range (substr bitStr p w) w)
      as [N|(z & Hz & R)]; [auto with bin | apply length_substr | now left |].
    right; exists z; split; [assumption|].
    assert (2 ^ Z.of_nat w <= 512)%Z
      by (destruct Hw as [-> | [-> | ->]]; simpl; lia).
    lia.
Qed.

Lemma decoded_values_bounded_witness :
  length [Int 0; NaN; NaN] < 1024 /\
  forall v, In v [Int 0; NaN; NaN] ->
    v = NaN \/ exists z, v = Int z /\ (0 <= z <= 511)%Z.
Proof.
  apply (decoded_values_bounded (lit "Bg")); reflexivity.
Defined.

(** ** Inputs too short for a header *)

Lemma readCount_pos bitStr : 7 <= snd (readCount bitStr).
Proof.
  unfold readCount.
  destruct (charAt bitStr 0) as [c|]; [|cbn; lia].
  destruct (ascii_dec c "0") as [->|Hc]; [cbn; lia|].
  destruct c as [[] [] [] [] [] [] [] []]; cbn; lia.
Qed.

Lemma widthOfCode_short bitsCode :
  length bitsCode < 2 -> widthOfCode bitsCode = Throw InvalidWidthCode.
Proof.
  destruct bitsCode as [|a [|b s]]; cbn [length]; intro H; try lia.
  - reflexivity.
  - unfold widthOfCode; cbn [eqb lit list_ascii_of_string].
    rewrite !andb_false_r; reflexivity.
Qed.

(** X5: a string of symbols too short to hold the header is rejected:
    when the unpacked bits end before the second bit of the width code,
    [deserialize] raises the invalid-width-code error.  This is so for
    the empty string and for every single symbol. *)
Theorem short_input_rejected serialized :
  inAlphabet serialized ->
  (forall bitStr,
     fromBase64 serialized = Ok bitStr ->
     length bitStr < snd (readCount bitStr) + 2 ->
     deserialize serialized = Throw InvalidWidthCode) /\
  (length serialized <= 1 -> deserialize serialized = Throw InvalidWidthCode).
Proof.
  intro Ha.
  assert (H : forall bitStr,
             fromBase64 serialized = Ok bitStr ->
             length bitStr < snd (readCount bitStr) + 2 ->
             deserialize serialized = Throw InvalidWidthCode).
  { intros bitStr Hb Hl; unfold deserialize; rewrite Hb; cbn [bind].
    apply readBits_throw, widthOfCode_short.
    unfold substr; rewrite length_firstn, length_skipn; lia. }
  split; [exact H|].
  intro Hlen.
  destruct (fromBase64Loop_bits serialized [] Ha) as (bits & Hb & _ & Lb & _).
  apply (H bits Hb).
  pose proof (readCount_pos bits); lia.
Qed.

Lemma short_input_rejected_witness :
  deserialize (lit "z") = Throw InvalidWidthCode.
Proof.
  apply (proj2 (short_input_rejected (lit "z") ltac:(in_alphabet))).
  simpl; lia.
Defined.

(** ** The width grows with the sequence *)

Lemma determineBitsPerNumber_nil : determineBitsPerNumber [] = 4.
Proof. reflexivity. Qed.

(** X6: the selected width only depends on which values occur, and
    grows with them: if every element of [a] occurs in [b], the width
    selected for [a] is at most the width selected for [b]. *)
Theorem width_monotone a b :
  incl a b -> determineBitsPerNumber a <= determineBitsPerNumber b.
Proof.
  intro H.
  destruct a as [|x a'].
  - rewrite determineBitsPerNumber_nil.
    destruct (determineBitsPerNumber_cases b) as [-> | [-> | ->]]; lia.
  - destruct (Math_max_is_max (x :: a') ltac:(discriminate)) as (ma & _ & Ha).
    assert (Hb0 : b <> []) by (intros ->; exact (H x (or_introl eq_refl))).
    destruct (Math_max_is_max b Hb0) as (mb & _ & Hb).
    rewrite (determineBitsPerNumber_is_max ma _ Ha),
            (determineBitsPerNumber_is_max mb _ Hb).
    assert (ma <= mb)%Z by (apply Hb, H, Ha).
    destruct (Z.ltb_spec ma 10), (Z.ltb_spec mb 10),
             (Z.ltb_spec ma 100), (Z.ltb_spec mb 100); lia.
Qed.

Lemma width_monotone_witness :
  determineBitsPerNumber [5; 7]%Z <= determineBitsPerNumber [7; 120; 5]%Z.
Proof.
  apply (width_monotone [5; 7]%Z [7; 120; 5]%Z).
  intros x [<-|[<-|[]]]; simpl; auto.
Defined.

(** ** How a count of 1024 to 2047 is read back *)

Lemma toString2_double k (b : bool) :
  (0 < k)%Z ->
  toString2 (2 * k + Z.b2z b) = toString2 k ++ [if b then "1" else "0"].
Proof.
  destruct k as [|p|p]; intro H; try lia.
  destruct b;
    [change (2 * Z.pos p + Z.b2z true)%Z with (Z.pos p~1)
    |change (2 * Z.pos p + Z.b2z false)%Z with (Z.pos p~0)];
    cbn [toString2 bits_pos]; rewrite bits_pos_acc; reflexivity.
Qed.

(** A number from 512 to 1023 has exactly ten binary digits. *)
Lemma length_toString2_ten k :
  (512 <= k <= 1023)%Z -> length (toString2 k) = 10.
Proof.
  intro H; destruct k as [|p|p]; try lia; cbn [toString2].
  pose proof (length_bits_pos p 10 ltac:(simpl; lia)).
  pose proof (length_bits_pos_lower p 9 ltac:(simpl; lia)).
  lia.
Qed.

(** X7: what the 10-bit length field does to a count of 1024 to 2047.
    [serialize] writes the eleven binary digits of the count after the
    flag; [deserialize] takes the first ten as the count, which is half
    the count written (rounded down), and the eleventh as first bit of
    the width code.  So it returns half as many numbers as were encoded,
    except when the count is odd and the width is 9, where the code read
    is 11 and it raises the invalid-width-code error. *)
Theorem count_halved numbers :
  valid numbers -> 1024 <= length numbers < 2048 ->
  exists bitsCode rest s,
    length (toString2 (Z.of_nat (length numbers))) = 11 /\
    bitsCodeOf (determineBitsPerNumber numbers) = Ok bitsCode /\
    serializeBits numbers =
      Ok (("1" :: toString2 (Z.of_nat (length numbers))) ++ bitsCode ++ rest) /\
    serialize numbers = Ok s /\
    fromBase64 s =
      Ok (("1" :: toString2 (Z.of_nat (length numbers))) ++ bitsCode ++ rest) /\
    readCount (("1" :: toString2 (Z.of_nat (length numbers))) ++ bitsCode ++ rest) =
      (Int (Z.of_nat (length numbers / 2)), 11) /\
    substr (("1" :: toString2 (Z.of_nat (length numbers))) ++ bitsCode ++ rest) 11 2 =
      (if Nat.odd (length numbers) then "1" else "0") :: firstn 1 bitsCode /\
    if Nat.odd (length numbers) && (determineBitsPerNumber numbers =? 9)%nat
    then deserialize s = Throw InvalidWidthCode
    else lengthOf (deserialize s) = Some (length numbers / 2).
Proof.
  intros V Hlen.
  destruct (long_layout numbers V ltac:(lia))
    as (bitsCode & rest & _ & Hcode & Hb & Hs & Hf & Hr & Hc).
  set (n := length numbers) in *.
  pose proof (Nat.div2_odd n) as Hn; rewrite Nat.div2_div in Hn.
  set (k := n / 2) in *.
  assert (Hk : (512 <= Z.of_nat k <= 1023)%Z)
    by (destruct (Nat.odd n); cbn [Nat.b2n] in Hn; lia).
  pose proof (length_toString2_ten _ Hk) as Lk.
  assert (HT : toString2 (Z.of_nat n) =
               toString2 (Z.of_nat k) ++ [if Nat.odd n then "1" else "0"]).
  { replace (Z.of_nat n) with (2 * Z.of_nat k + Z.b2z (Nat.odd n))%Z
      by (destruct (Nat.odd n); cbn [Nat.b2n Z.b2z] in *; lia).
    apply toString2_double; lia. }
  assert (H10 : parseInt2 (firstn 10 (toString2 (Z.of_nat n))) = Int (Z.of_nat k)).
  { rewrite HT, (firstn_app_len _ _ 10 Lk).
    rewrite parseInt2_binary, digits_toString2 by
      (try apply binary_toString2; try apply toString2_not_nil; lia).
    reflexivity. }
  assert (S10 : skipn 10 (toString2 (Z.of_nat n)) =
                [if Nat.odd n then "1" else "0"]).
  { rewrite HT, skipn_app, skipn_all2, Lk by lia; reflexivity. }
  rewrite H10 in Hr; rewrite S10 in Hc.
  exists bitsCode, rest; eexists.
  split; [rewrite HT, length_app, Lk; reflexivity|].
  split; [exact Hcode|]; split; [exact Hb|]; split; [exact Hs|].
  split; [exact Hf|]; split; [exact Hr|]; split; [exact Hc|].
  unfold deserialize; rewrite Hf; cbn [bind].
  unfold readBits; rewrite Hr, Hc; cbn [turns]; rewrite Nat2Z.id.
  destruct (determineBitsPerNumber_cases numbers) as [E|[E|E]];
    rewrite E in *; cbn in Hcode; injection Hcode as <-;
    destruct (Nat.odd n); cbn [andb Nat.eqb];
    match goal with
    | |- context [widthOfCode ?c] =>
        let r := eval vm_compute in (widthOfCode c) in
        change (widthOfCode c) with r
    end;
    cbn [bind lengthOf]; rewrite ?length_readNumbers; reflexivity.
Qed.

Lemma count_halved_witness :
  exists s,
    serialize (constant 1 1024) = Ok s /\
    lengthOf (deserialize s) = Some 512.
Proof.
  destruct (count_halved (constant 1 1024)
              (valid_constant 1 1024 ltac:(lia))
              ltac:(rewrite length_constant; lia))
    as (bitsCode & rest & s & _ & _ & _ & Hs & _ & _ & _ & Hd).
  exists s; split; [exact Hs | exact Hd].
Defined.

(** ** The serialized string against the comma-joined text *)

Lemma existsb_valid numbers : existsb outOfRange numbers = false -> valid numbers.
Proof.
  intros E x Hx.
  destruct (Z.ltb_spec x 1) as [H1|H1]; [|destruct (Z.ltb_spec 300 x) as [H2|H2]];
    try lia;
    (assert (T : existsb outOfRange numbers = true);
     [apply existsb_outOfRange; exists x; split; [assumption | lia]
     | congruence]).
Qed.

(** The number of symbols [serialize] returns for at most 1023 valid
    elements. *)
Lemma length_serialize numbers :
  valid numbers -> length numbers <= 1023 ->
  exists s,
    serialize numbers = Ok s /\
    length s =
    ceilDiv6 ((if (length numbers <? 64)%nat then 9 else 13) +
              length numbers * determineBitsPerNumber numbers).
Proof.
  intros V Hlen.
  destruct (serializeBits_ok numbers (valid_existsb numbers V)) as (bitsCode & Hc & Hb).
  destruct (bitsCodeOf_determineBitsPerNumber numbers) as (c' & Hc' & Hlit & _).
  rewrite Hc in Hc'; injection Hc' as <-.
  destruct (binary_lit_code bitsCode Hlit) as [Bc Lc].
  set (w := determineBitsPerNumber numbers) in *.
  set (raw := lengthHeader numbers ++ bitsCode ++ body w numbers) in *.
  assert (Braw : binary (padToSix raw)).
  { rewrite padToSix_app; subst raw.
    repeat apply binary_app; auto using binary_lengthHeader, binary_repeat.
    apply binary_body; intros x Hx; specialize (V x Hx); lia. }
  destruct (toBase64_shape (padToSix raw) (length_padToSix raw) Braw) as [_ Hl].
  exists (toBase64 (padToSix raw)).
  split; [unfold serialize; rewrite Hb; reflexivity|].
  rewrite length_padToSix_ceil in Hl.
  assert (Lraw : length raw =
                 (if (length numbers <? 64)%nat then 9 else 13) + length numbers * w).
  { subst raw; rewrite !length_app, Lc, length_lengthHeader by assumption.
    rewrite length_body by (intros x Hx; apply width_fits; assumption).
    destruct (length numbers <? 64)%nat; lia. }
  rewrite <- Lraw; lia.
Qed.

(** The decimal digits of a valid element: one below 10, two below 100,
    three from 100 on. *)
Lemma length_toString10 x :
  (1 <= x <= 300)%Z ->
  length (toString10 x) =
  if (x <? 10)%Z then 1 else if (x <? 100)%Z then 2 else 3.
Proof.
  intro H.
  assert (A : forallb
                (fun k =>
                   let x := Z.of_nat k in
                   length (toString10 x) =?
                   (if (x <? 10)%Z then 1 else if (x <? 100)%Z then 2 else 3))%nat
                (seq 1 300) = true) by (vm_compute; reflexivity).
  rewrite forallb_forall in A.
  specialize (A (Z.to_nat x)); cbv zeta in A.
  rewrite Z2Nat.id in A by lia.
  apply Nat.eqb_eq, A, in_seq; lia.
Qed.

Lemma toString10_not_nil x : toString10 x <> [].
Proof.
  unfold toString10, DecimalString.NilZero.string_of_int.
  destruct (Z.to_int x) as [d|d].
  - unfold DecimalString.NilZero.string_of_uint; destruct d; discriminate.
  - discriminate.
Qed.

Lemma join_cons x rest :
  rest <> [] -> join (x :: rest) = toString10 x ++ "," :: join rest.
Proof. destruct rest; [congruence | reflexivity]. Qed.

Lemma join_nil_iff numbers : join numbers = [] <-> numbers = [].
Proof.
  split; [|intros ->; reflexivity].
  destruct numbers as [|x [|y rest]]; [reflexivity | |]; intro H; exfalso.
  - exact (toString10_not_nil x H).
  - rewrite join_cons in H by discriminate.
    apply app_eq_nil in H; destruct H; discriminate.
Qed.

(** The joined text has a comma and at least one digit per element, one
    comma less, and the digits of any one element [m] besides. *)
Lemma length_join_lower numbers : forall m,
  valid numbers -> In m numbers ->
  2 * length numbers + length (toString10 m) <= length (join numbers) + 2.
Proof.
  induction numbers as [|x rest IH]; intros m V Hm; [contradiction|].
  assert (Lx : 1 <= length (toString10 x)).
  { rewrite length_toString10 by (apply V; now left).
    destruct (x <? 10)%Z; [|destruct (x <? 100)%Z]; lia. }
  destruct rest as [|y rest'].
  - destruct Hm as [->|[]]; cbn [join length]; lia.
  - rewrite join_cons by discriminate.
    rewrite length_app; cbn [length].
    assert (Vr : valid (y :: rest')) by (intros z Hz; apply V; now right).
    destruct Hm as [->|Hm].
    + pose proof (IH y Vr (or_introl eq_refl)) as IHy.
      assert (1 <= length (toString10 y)).
      { rewrite length_toString10 by (apply Vr; now left).
        destruct (y <? 10)%Z; [|destruct (y <? 100)%Z]; lia. }
      cbn [length] in *; lia.
    + pose proof (IH m Vr Hm) as IHm; cbn [length] in *; lia.
Qed.

Lemma serialize_shorter numbers :
  valid numbers -> 3 <= length numbers <= 1023 ->
  exists s, serialize numbers = Ok s /\ length s < length (trivial numbers).
Proof.
  intros V [H3 Hlen].
  destruct (length_serialize numbers V Hlen) as (s & Hs & Ls).
  exists s; split; [assumption|]; rewrite Ls; clear Ls Hs s.
  destruct (Math_max_is_max numbers) as (m & _ & Hm).
  { intros ->; simpl in H3; lia. }
  rewrite (determineBitsPerNumber_is_max m numbers Hm).
  destruct Hm as [Hin _].
  pose proof (length_join_lower numbers m V Hin) as L.
  rewrite length_toString10 in L by (apply V, Hin).
  unfold trivial, ceilDiv6.
  set (n := length numbers) in *; set (t := length (join numbers)) in *.
  clearbody n t.
  destruct (Nat.ltb_spec n 64);
    (destruct (m <? 10)%Z; [|destruct (m <? 100)%Z]);
    apply Nat.Div0.div_lt_upper_bound; lia.
Qed.

(** X8: for at least 3 and at most 1023 valid elements the serialized
    string is strictly shorter than the elements written in decimal and
    joined by commas (the two lengths [compressionRatio] divides). *)
Theorem serialized_shorter_than_text numbers :
  valid numbers -> 3 <= length numbers <= 1023 ->
  exists s, serialize numbers = Ok s /\ length s < length (trivial numbers).
Proof. exact (serialize_shorter numbers). Qed.

Lemma serialized_shorter_than_text_witness :
  exists s,
    serialize [1; 2; 3]%Z = Ok s /\ length s < length (trivial [1; 2; 3]%Z).
Proof.
  apply (serialized_shorter_than_text [1; 2; 3]%Z).
  - intros x [<-|[<-|[<-|[]]]]; lia.
  - simpl; lia.
Defined.

(** X9: the text [compressionRatio] divides by is empty exactly for the
    empty sequence, and what [serialize] returns has at least two
    symbols: the divisor is 0, with a dividend that is not, on the empty
    sequence and only there. *)
Theorem ratio_operands numbers :
  (length (trivial numbers) = 0 <-> numbers = []) /\
  (forall s, serialize numbers = Ok s -> 2 <= length s) /\
  (exists s, serialize [] = Ok s /\ length s = 2 /\ length (trivial []) = 0).
Proof.
  split; [|split].
  - unfold trivial; rewrite length_zero_iff_nil; apply join_nil_iff.
  - intros s H; unfold serialize in H.
    destruct (existsb outOfRange numbers) eqn:E.
    + unfold serializeBits in H; rewrite E in H; discriminate H.
    + destruct (serializeBits_ok numbers E) as (bitsCode & Hc & Hb).
      rewrite Hb in H; cbn [bind] in H; injection H as <-.
      destruct (bitsCodeOf_determineBitsPerNumber numbers) as (c' & Hc' & Hlit & _).
      rewrite Hc in Hc'; injection Hc' as <-.
      destruct (binary_lit_code bitsCode Hlit) as [Bc Lc].
      pose proof (existsb_valid numbers E) as V.
      set (raw := lengthHeader numbers ++ bitsCode ++
                  body (determineBitsPerNumber numbers) numbers) in *.
      assert (Braw : binary (padToSix raw)).
      { rewrite padToSix_app; subst raw.
        repeat apply binary_app; auto using binary_lengthHeader, binary_repeat.
        apply binary_body; intros x Hx; specialize (V x Hx); lia. }
      destruct (toBase64_shape (padToSix raw) (length_padToSix raw) Braw) as [_ Hl].
      assert (9 <= length (padToSix raw)).
      { rewrite padToSix_app; subst raw; rewrite !length_app, Lc.
        unfold lengthHeader; destruct (_ <? _)%nat; cbn [length];
          rewrite length_padStart; lia. }
      lia.
  - eexists; split; [vm_compute; reflexivity | split; reflexivity].
Qed.

Lemma ratio_operands_witness : 2 <= length (lit "BgkY").
Proof.
  apply (proj1 (proj2 (ratio_operands [1; 2; 3]%Z)) (lit "BgkY")).
  reflexivity.
Defined.

(** ** The fixed data sets of [runTests] *)

(** X10: the six data sets of [runTests] that are not random have 3, 9,
    300, 300, 300 and 900 elements, get the widths 4, 4, 4, 7, 9 and 9,
    and each of them is valid, is serialized, decodes to itself, and
    gets a string strictly shorter than its comma-joined text. *)
Theorem fixed_tests_round_trip :
  map (@length Z) fixedTests = [3; 9; 300; 300; 300; 900] /\
  map determineBitsPerNumber fixedTests = [4; 4; 4; 7; 9; 9] /\
  Forall
    (fun data =>
       valid data /\
       exists s,
         serialize data = Ok s /\
         deserialize s = Ok (map Int data) /\
         length s < length (trivial data))
    fixedTests.
Proof.
  split; [vm_compute; reflexivity|].
  split; [vm_compute; reflexivity|].
  assert (H : forall data,
             existsb outOfRange data = false ->
             (3 <=? length data)%nat && (length data <=? 1023)%nat = true ->
             valid data /\
             exists s,
               serialize data = Ok s /\
               deserialize s = Ok (map Int data) /\
               length s < length (trivial data)).
  { intros data E L.
    apply andb_true_iff in L; destruct L as [L3 L].
    apply Nat.leb_le in L3, L.
    pose proof (existsb_valid data E) as V; split; [assumption|].
    destruct (serialize_deserialize data V L) as (s & Hs & Hd).
    destruct (serialize_shorter data V (conj L3 L)) as (s' & Hs' & Hl).
    rewrite Hs in Hs'; injection Hs' as <-.
    exists s; repeat split; assumption. }
  unfold fixedTests; repeat (apply Forall_cons || apply Forall_nil);
    apply H; vm_compute; reflexivity.
Qed.
